(** * pester: retries, concurrency, backoff and error log of the HTTP client

    A shallow embedding of [main.go] (package [pester]).

    - Go's [int] and [time.Duration] are 64-bit signed integers: they are
      modelled as [Z] with the wrap-around of every arithmetic operation
      written out ([wrap64]).
    - The goroutines started by [Client.pester] are modelled as a labelled
      transition system: one worker state per goroutine, the two channels
      ([resultCh], on which the orchestrator receives once, and [finishCh],
      which it closes then) and the fields of the client that the call
      mutates.  A schedule (a list of actions) drives the system, so that
      every interleaving is a schedule and the model can be run on concrete
      inputs.
    - The HTTP transport, the clock and the random generator are oracles. *)

From Stdlib Require Import ZArith String Ascii List Bool Lia.
From stdpp Require Import base tactics option list strings pretty.

Local Open Scope Z_scope.

(** ** Machine integers and durations *)

Module GoInt.

(** Two's complement wrap-around of a 64-bit signed integer. *)
Definition wrap64 (z : Z) : Z := (z + 2 ^ 63) mod 2 ^ 64 - 2 ^ 63.

Definition min_int : Z := - 2 ^ 63.
Definition max_int : Z := 2 ^ 63 - 1.

Definition add (a b : Z) : Z := wrap64 (a + b).
Definition sub (a b : Z) : Z := wrap64 (a - b).
Definition mul (a b : Z) : Z := wrap64 (a * b).

(** Go's [/] on integers truncates towards zero. *)
Definition div (a b : Z) : Z := wrap64 (Z.quot a b).

End GoInt.

(** [time.Duration]: a number of nanoseconds. *)
Definition Duration := Z.

Definition Nanosecond : Duration := 1.
Definition Microsecond : Duration := 1000 * Nanosecond.
Definition Millisecond : Duration := 1000 * Microsecond.
Definition Second : Duration := 1000 * Millisecond.

(** ** Backoff strategies *)

(** [type BackoffStrategy func(retry int) time.Duration].  The result is
    [None] where the Go code panics or where the language leaves the value
    of a conversion to the implementation. *)
Definition BackoffStrategy := Z -> option Duration.

(** [int(math.Pow(2, float64(i)))].  Powers of two are exact in float64:
    for [0 <= i <= 62] the conversion gives [2^i]; for [i < 0] the float is
    in (0,1) (or underflows to 0) and truncates to 0; for [i >= 63] the float
    does not fit an int64 and Go leaves the converted value to the
    implementation. *)
Definition pow2_int (i : Z) : option Z :=
  if i <? 0 then Some 0
  else if i <=? 62 then Some (2 ^ i)
  else None.

(** [func DefaultBackoff(_ int) time.Duration] *)
Definition DefaultBackoff : BackoffStrategy :=
  fun _ => Some (GoInt.mul 1 Second).

(** [func ExponentialBackoff(i int) time.Duration] *)
Definition ExponentialBackoff : BackoffStrategy :=
  fun i => p ← pow2_int i; Some (GoInt.mul p Second).

(** [func LinearBackoff(i int) time.Duration] *)
Definition LinearBackoff : BackoffStrategy :=
  fun i => Some (GoInt.mul i Second).

Section Jitter.

(** The generator of [math/rand]: [rng seed k] is the raw value behind the
    [k]-th draw after [rand.Seed(seed)]; [now] is [time.Now().Unix()] at
    the moment of the call. *)
Variable rng : Z -> nat -> Z.
Variable now : Z.

(** [rand.Intn(n)]: a value in [[0, n)]; panics when [n <= 0]. *)
Definition Intn (k : nat) (n : Z) : option Z :=
  if n <=? 0 then None else Some (rng now k mod n).

(** [func jitter(i int) time.Duration] *)
Definition jitter (i : Z) : option Duration :=
  let ms := GoInt.mul i 1000 in
  let maxJitter := GoInt.div ms 3 in
  j ← Intn 0 (GoInt.add maxJitter 1);
  s ← Intn 1 2;
  let ms := if s =? 1 then GoInt.add ms j else GoInt.sub ms j in
  let ms := if ms <=? 0 then 1 else ms in
  Some (GoInt.mul ms Millisecond).

(** [func LinearJitterBackoff(i int) time.Duration] *)
Definition LinearJitterBackoff : BackoffStrategy :=
  fun i => jitter i.

(** [func ExponentialJitterBackoff(i int) time.Duration] *)
Definition ExponentialJitterBackoff : BackoffStrategy :=
  fun i => p ← pow2_int i; jitter p.

End Jitter.

(** ** Data model *)

(** A Go [error], identified with the text its [Error()] method returns. *)
Definition error := string.

(** [errors.New] and [fmt.Errorf("%v", s)] on a string. *)
Definition errors_New (msg : string) : error := msg.
Definition Errorf_v (s : string) : error := s.

(** The part of [http.Response] that the client looks at. *)
Record Response := mkResponse {
  Status : string;
  StatusCode : Z
}.

(** [&http.Response{}] *)
Definition empty_Response : Response := {| Status := ""; StatusCode := 0 |}.

(** An [io.Reader] together with what [ioutil.ReadAll] gets out of it. *)
Record Reader := mkReader {
  rd_bytes : list Byte.byte;
  rd_err : option error
}.

Definition ReadAll (r : Reader) : list Byte.byte * option error :=
  (rd_bytes r, rd_err r).

(** [http.Request]: method, [URL.String()] and the optional body. *)
Record Request := mkRequest {
  Method : string;
  URL : string;
  Body : option Reader
}.

(** [type ErrEntry struct]; [Time] is kept as its Unix seconds, and [Err] is
    [None] for a nil error. *)
Record ErrEntry := mkErrEntry {
  e_Time : Z;
  e_Method : string;
  e_URL : string;
  e_Verb : string;
  e_Request : Z;
  e_Retry : Z;
  e_Err : option error
}.

(** [type Client struct], without the fields handed unchanged to the
    standard library's client.  [Logger] and [LogWriter] tell whether the
    field is non-nil; what is written to them is kept in the state of the
    call. *)
Record Client := mkClient {
  Concurrency : Z;
  MaxRetries : Z;
  Backoff : BackoffStrategy;
  KeepLog : bool;
  Logger : bool;
  LogWriter : bool;
  LogRetries : bool;
  Verbosity : Z;
  Threshold : string;
  LogTimeFormat : string;
  SuccessReqNum : Z;
  SuccessRetryNum : Z;
  ErrLog : list ErrEntry
}.

Definition set_ErrLog (c : Client) (l : list ErrEntry) : Client :=
  {| Concurrency := Concurrency c; MaxRetries := MaxRetries c;
     Backoff := Backoff c; KeepLog := KeepLog c; Logger := Logger c;
     LogWriter := LogWriter c; LogRetries := LogRetries c;
     Verbosity := Verbosity c; Threshold := Threshold c;
     LogTimeFormat := LogTimeFormat c;
     SuccessReqNum := SuccessReqNum c; SuccessRetryNum := SuccessRetryNum c;
     ErrLog := l |}.

Definition set_Success (c : Client) (reqn retryn : Z) : Client :=
  {| Concurrency := Concurrency c; MaxRetries := MaxRetries c;
     Backoff := Backoff c; KeepLog := KeepLog c; Logger := Logger c;
     LogWriter := LogWriter c; LogRetries := LogRetries c;
     Verbosity := Verbosity c; Threshold := Threshold c;
     LogTimeFormat := LogTimeFormat c;
     SuccessReqNum := reqn; SuccessRetryNum := retryn;
     ErrLog := ErrLog c |}.

(** [type result struct] *)
Record result := mkResult {
  res_resp : option Response;
  res_err : option error;
  res_req : Z;
  res_retry : Z
}.

(** [type params struct] *)
Record params := mkParams {
  p_method : string;
  p_verb : string;
  p_req : option Request;
  p_url : string;
  p_bodyType : string;
  p_body : option Reader;
  p_data : list (string * list string)
}.

(** [LogStringTimeFormat] *)
Definition LogStringTimeFormat : string := "15:04:05.999999".

(** [var DefaultClient = &Client{Concurrency: 1, MaxRetries: 3,
    Backoff: DefaultBackoff, ErrLog: []ErrEntry{}}]; the other fields have
    their zero value. *)
Definition DefaultClient : Client :=
  {| Concurrency := 1; MaxRetries := 3; Backoff := DefaultBackoff;
     KeepLog := false; Logger := false; LogWriter := false;
     LogRetries := false; Verbosity := 0; Threshold := "";
     LogTimeFormat := ""; SuccessReqNum := 0; SuccessRetryNum := 0;
     ErrLog := [] |}.

(** [func New() *Client].  [DefaultClient] is a package variable that
    points to a client which any caller can use and change: [New] reads
    its fields when it is called, and [d] is the client that the variable
    points to at that moment ([DefaultClient] above when nothing has
    touched it). *)
Definition New (d : Client) : Client :=
  {| Concurrency := Concurrency d;
     MaxRetries := MaxRetries d;
     Backoff := Backoff d;
     KeepLog := false; Logger := false; LogWriter := false;
     LogRetries := true; Verbosity := 2; Threshold := "info";
     LogTimeFormat := LogStringTimeFormat;
     SuccessReqNum := 0; SuccessRetryNum := 0;
     ErrLog := ErrLog d |}.

(** ** The error log *)

(** What [Client.log] hands to the external logger and to the raw writer.
    The text written there (a layout of the time, the caller's file and
    line) is not modelled: the event keeps the entry it was built from. *)
Inductive SinkEvent :=
| ToLogger (e : ErrEntry)
| ToLogWriter (e : ErrEntry).

(** [func (c *Client) log(e ErrEntry)], on the client and the sinks. *)
Definition log (c : Client) (out : list SinkEvent) (e : ErrEntry)
  : Client * list SinkEvent :=
  let out :=
    if LogRetries c then
      let out := if Logger c then out ++ [ToLogger e] else out in
      if LogWriter c then out ++ [ToLogWriter e] else out
    else out in
  let c := if KeepLog c then set_ErrLog c (ErrLog c ++ [e]) else c in
  (c, out).

(** [%s] applied to an [error]: the text of a non-nil error, and fmt's
    rendering of a nil interface. *)
Definition fmt_error (e : option error) : string :=
  match e with
  | Some msg => msg
  | None => "%!s(<nil>)"
  end.

(** [fmt.Sprintf("%d %s [%s] to %s request-%d retry-%d error: %s\n", ...)]
    on the fields of an entry. *)
Definition Sprintf_entry (e : ErrEntry) : string :=
  pretty (e_Time e) +:+ " " +:+ e_Method e +:+ " [" +:+ e_Verb e +:+ "] to "
  +:+ e_URL e +:+ " request-" +:+ pretty (e_Request e)
  +:+ " retry-" +:+ pretty (e_Retry e)
  +:+ " error: " +:+ fmt_error (e_Err e) +:+ String "010" "".

(** [func (c *Client) LogString() string]: the loop [res += ...] over
    [c.ErrLog]. *)
Definition LogString (c : Client) : string :=
  fold_left (fun res e => res +:+ Sprintf_entry e) (ErrLog c) "".

(** ** The transport and the clock *)

(** One raw call of the standard library's client. *)
Record Attempt := mkAttempt {
  a_method : string;
  a_url : string;
  a_bodyType : string;
  a_body : list Byte.byte;
  a_data : list (string * list string);
  a_worker : Z;
  a_retry : Z
}.

(** What [http.Client] returns: a response and a nil error, or a non-nil
    error (with a response or without). *)
Inductive Outcome :=
| Returned (r : Response)
| Failed (r : option Response) (e : error).

Record World := mkWorld {
  transport : Attempt -> Outcome;
  (** [time.Now()] when worker [n] logs the failure of its retry [i] *)
  clock : Z -> Z -> Z
}.

(** ** The workers and the orchestrator *)

(** A goroutine of [pester], by the point of its body it is at. *)
Inductive wstate :=
| AtLoop (i : Z) (resp : option Response) (err : option error)
    (** about to test [i < c.MaxRetries] *)
| Attempting (i : Z) (resp : option Response) (err : option error)
    (** [finishCh] was found open: about to rehydrate and call *)
| Sending (r : result)
    (** blocked on [resultCh <- r] *)
| Blocked
    (** [<-time.Tick(d)] with [d <= 0]: a receive on a nil channel *)
| Panicked
    (** a run-time panic, which ends the program *)
| Done.

Record state := mkState {
  client : Client;
  workers : list wstate;
  finished : bool;                       (** [finishCh] is closed *)
  returned : option (option Response * option error);
  attempts : list Attempt;               (** raw calls made so far *)
  sink : list SinkEvent;
  crashed : bool                         (** a goroutine panicked *)
}.

Inductive action :=
| Work (n : nat)     (** worker [n] runs up to its next point *)
| Recv (n : nat).    (** the orchestrator receives what worker [n] sends *)

(** The verdict on one attempt. *)
Inductive verdict :=
| Success (r : Response)
| Failure (resp : option Response) (e : error)
| NilResponse.

Section Pester.

Variable w : World.
Variable c : Client.   (** the client when the call starts *)
Variable p : params.

(** [concurrency := c.Concurrency; if p.verb != "GET" { concurrency = 1 }] *)
Definition concurrency : Z :=
  if negb (String.eqb (p_verb p) "GET") then 1 else Concurrency c.

(** The bytes saved from [p.req.Body] and from [p.body] before the
    goroutines start, or the error of the read that failed. *)
Definition read_bodies : error + (list Byte.byte * list Byte.byte) :=
  let r1 :=
    match p_req p with
    | Some rq =>
        match Body rq with
        | Some b =>
            match ReadAll b with
            | (_, Some _) => inl (errors_New "error reading request body")
            | (bs, None) => inr bs
            end
        | None => inr []
        end
    | None => inr []
    end in
  match r1 with
  | inl e => inl e
  | inr originalRequestBody =>
      match p_body p with
      | Some b =>
          match ReadAll b with
          | (_, Some _) => inl (errors_New "error reading body")
          | (originalBody, None) => inr (originalRequestBody, originalBody)
          end
      | None => inr (originalRequestBody, [])
      end
  end.

Definition originalRequestBody : list Byte.byte :=
  match read_bodies with inr (b, _) => b | inl _ => [] end.

Definition originalBody : list Byte.byte :=
  match read_bodies with inr (_, b) => b | inl _ => [] end.

Definition known_method (m : string) : bool :=
  String.eqb m "Do" || String.eqb m "Get" || String.eqb m "Head"
  || String.eqb m "Post" || String.eqb m "PostForm".

(** The raw call of worker [n] at retry [i].  The body is rehydrated from
    the saved bytes when there are any; a drained reader has none left, so
    that the bytes on the wire are the saved ones in both cases. *)
Definition attempt_of (n i : Z) : Attempt :=
  {| a_method := p_method p;
     a_url := p_url p;
     a_bodyType := p_bodyType p;
     a_body := if String.eqb (p_method p) "Do" then originalRequestBody
               else if String.eqb (p_method p) "Post" then originalBody
               else [];
     a_data := p_data p;
     a_worker := n;
     a_retry := i |}.

(** [switch p.method { ... }]: [resp, err] after the switch.  A method
    outside the five cases leaves them as they were. *)
Definition route (n i : Z) (resp : option Response) (err : option error)
  : option Response * option error :=
  if known_method (p_method p) then
    match transport w (attempt_of n i) with
    | Returned r => (Some r, None)
    | Failed r e => (r, Some e)
    end
  else (resp, err).

(** [err == nil && resp.StatusCode < 400], then
    [if err == nil { err = fmt.Errorf("%v", resp.Status) }]. *)
Definition classify (ro : option Response * option error) : verdict :=
  match ro with
  | (Some r, None) =>
      if StatusCode r <? 400 then Success r
      else Failure (Some r) (Errorf_v (Status r))
  | (None, None) => NilResponse
  | (resp, Some e) => Failure resp e
  end.

(** [ErrEntry{Time: time.Now(), Method: p.method, Verb: p.verb,
    URL: p.url, Request: n, Retry: i, Err: err}] *)
Definition failure_entry (n i : Z) (e : error) : ErrEntry :=
  {| e_Time := clock w n i;
     e_Method := p_method p;
     e_Verb := p_verb p;
     e_URL := p_url p;
     e_Request := n;
     e_Retry := i;
     e_Err := Some e |}.

Definition set_worker (st : state) (n : nat) (ws : wstate) : state :=
  {| client := client st; workers := <[n := ws]> (workers st);
     finished := finished st; returned := returned st;
     attempts := attempts st; sink := sink st; crashed := crashed st |}.

(** One step of worker [n]. *)
Definition work (n : nat) (st : state) : option state :=
  if crashed st then None else
  match workers st !! n with
  | Some (AtLoop i resp err) =>
      if i <? MaxRetries (client st) then
        if finished st then Some (set_worker st n Done)
        else Some (set_worker st n (Attempting i resp err))
      else
        Some (set_worker st n
                (Sending {| res_resp := resp; res_err := err;
                            res_req := 0; res_retry := 0 |}))
  | Some (Attempting i resp err) =>
      let made := if known_method (p_method p)
                  then attempts st ++ [attempt_of (Z.of_nat n) i]
                  else attempts st in
      match classify (route (Z.of_nat n) i resp err) with
      | Success r =>
          Some {| client := client st;
                  workers := <[n := Sending {| res_resp := Some r;
                                               res_err := None;
                                               res_req := Z.of_nat n;
                                               res_retry := i |}]>
                               (workers st);
                  finished := finished st; returned := returned st;
                  attempts := made; sink := sink st;
                  crashed := crashed st |}
      | NilResponse =>
          Some {| client := client st;
                  workers := <[n := Panicked]> (workers st);
                  finished := finished st; returned := returned st;
                  attempts := made; sink := sink st; crashed := true |}
      | Failure resp' e =>
          let (c', out') :=
            log (client st) (sink st) (failure_entry (Z.of_nat n) i e) in
          match Backoff (client st) i with
          | None =>
              Some {| client := c';
                      workers := <[n := Panicked]> (workers st);
                      finished := finished st; returned := returned st;
                      attempts := made; sink := out'; crashed := true |}
          | Some d =>
              let next :=
                if GoInt.add d (GoInt.mul 1 Microsecond) <=? 0 then Blocked
                (* [i++] cannot overflow: [i < c.MaxRetries] *)
                else AtLoop (i + 1) resp' (Some e) in
              Some {| client := c'; workers := <[n := next]> (workers st);
                      finished := finished st; returned := returned st;
                      attempts := made; sink := out'; crashed := crashed st |}
          end
      end
  | _ => None
  end.

(** [case res := <-resultCh]: the orchestrator takes the result of the
    worker it meets on the channel, closes [finishCh], records the
    numbers of the result and returns. *)
Definition recv (n : nat) (st : state) : option state :=
  if crashed st then None else
  match returned st, workers st !! n with
  | None, Some (Sending res) =>
      Some {| client := set_Success (client st) (res_req res) (res_retry res);
              workers := <[n := Done]> (workers st);
              finished := true;
              returned := Some (res_resp res, res_err res);
              attempts := attempts st; sink := sink st;
              crashed := crashed st |}
  | _, _ => None
  end.

Definition step (a : action) (st : state) : option state :=
  match a with
  | Work n => work n st
  | Recv n => recv n st
  end.

(** A schedule runs from a state when each of its actions is enabled. *)
Fixpoint exec (sched : list action) (st : state) : option state :=
  match sched with
  | [] => Some st
  | a :: sched => st' ← step a st; exec sched st'
  end.

(** [func (c *Client) pester(p params)] up to the start of the
    goroutines: the state in which the call has already returned the
    error of a body that could not be read, or the state with
    [concurrency] workers at the top of their loop. *)
Definition pester : state :=
  match read_bodies with
  | inl e =>
      {| client := c; workers := []; finished := false;
         returned := Some (Some empty_Response, Some e);
         attempts := []; sink := []; crashed := false |}
  | inr _ =>
      {| client := c;
         workers := replicate (Z.to_nat concurrency)
                      (AtLoop 0 (Some empty_Response) None);
         finished := false; returned := None;
         attempts := []; sink := []; crashed := false |}
  end.

End Pester.

(** ** Entry points *)

(** The [params{...}] literal of each method of the client. *)
Definition Do_params (rq : Request) : params :=
  {| p_method := "Do"; p_verb := Method rq; p_req := Some rq;
     p_url := URL rq; p_bodyType := ""; p_body := None; p_data := [] |}.

Definition Get_params (url : string) : params :=
  {| p_method := "Get"; p_verb := "GET"; p_req := None;
     p_url := url; p_bodyType := ""; p_body := None; p_data := [] |}.

Definition Head_params (url : string) : params :=
  {| p_method := "Head"; p_verb := "HEAD"; p_req := None;
     p_url := url; p_bodyType := ""; p_body := None; p_data := [] |}.

Definition Post_params (url bodyType : string) (body : option Reader)
  : params :=
  {| p_method := "Post"; p_verb := "POST"; p_req := None;
     p_url := url; p_bodyType := bodyType; p_body := body; p_data := [] |}.

Definition PostForm_params (url : string) (data : list (string * list string))
  : params :=
  {| p_method := "PostForm"; p_verb := "POST"; p_req := None;
     p_url := url; p_bodyType := ""; p_body := None; p_data := data |}.

(** [func (c *Client) Do(req *http.Request)] and its siblings: the state
    in which the call starts. *)
Definition Client_Do (c : Client) (rq : Request) : state :=
  pester c (Do_params rq).

Definition Client_Get (c : Client) (url : string) : state :=
  pester c (Get_params url).

Definition Client_Head (c : Client) (url : string) : state :=
  pester c (Head_params url).

Definition Client_Post (c : Client) (url bodyType : string)
           (body : option Reader) : state :=
  pester c (Post_params url bodyType body).

Definition Client_PostForm (c : Client) (url : string)
           (data : list (string * list string)) : state :=
  pester c (PostForm_params url data).

(** The package-level functions: [c := New(); return c.Do(req)] and the
    like, with [d] the client that [DefaultClient] points to when the
    function is called. *)
Definition Do (d : Client) (rq : Request) : state := Client_Do (New d) rq.
Definition Get (d : Client) (url : string) : state := Client_Get (New d) url.
Definition Head (d : Client) (url : string) : state :=
  Client_Head (New d) url.
Definition Post (d : Client) (url bodyType : string) (body : option Reader)
  : state := Client_Post (New d) url bodyType body.
Definition PostForm (d : Client) (url : string)
           (data : list (string * list string)) : state :=
  Client_PostForm (New d) url data.

(** The calls that the entry points can make. *)
Inductive entry_params : params -> Prop :=
| entry_Do rq : entry_params (Do_params rq)
| entry_Get url : entry_params (Get_params url)
| entry_Head url : entry_params (Head_params url)
| entry_Post url bt body : entry_params (Post_params url bt body)
| entry_PostForm url data : entry_params (PostForm_params url data).

(** ** Definitions used to state the properties *)

(** The value of [jitter] where nothing overflows: the two draws decide how
    far, and on which side, the result is from the base. *)
Definition jitter_ms (rng : Z -> nat -> Z) (now i : Z) : Z :=
  let B := i * 1000 in
  let j := rng now 0%nat mod (B / 3 + 1) in
  let ms := if rng now 1%nat mod 2 =? 1 then B + j else B - j in
  if ms <=? 0 then 1 else ms.

(** The interval of the specification for a jittered backoff of base [B]
    milliseconds: [[max(1, B - B/3), B + B/3]] milliseconds. *)
Definition spec_jitter_interval (B : Z) (d : Duration) : Prop :=
  Z.max 1 (B - B / 3) * Millisecond <= d <= (B + B / 3) * Millisecond.

(** The interval with the clamp on its upper end too. *)
Definition jitter_interval (B : Z) (d : Duration) : Prop :=
  Z.max 1 (B - B / 3) * Millisecond <= d
  <= Z.max 1 (B + B / 3) * Millisecond.

(** The effective concurrency as the specification words it: 1, unless the
    call is a GET or a HEAD and the configured concurrency is above 1. *)
Definition spec_concurrency (c : Client) (p : params) : Z :=
  if (String.eqb (p_method p) "Get" || String.eqb (p_method p) "Head")
     && (1 <? Concurrency c)
  then Concurrency c else 1.

(** A client configured for three concurrent requests. *)
Definition three_at_once : Client :=
  {| Concurrency := 3; MaxRetries := 3; Backoff := DefaultBackoff;
     KeepLog := true; Logger := false; LogWriter := false;
     LogRetries := false; Verbosity := 0; Threshold := "";
     LogTimeFormat := ""; SuccessReqNum := 0; SuccessRetryNum := 0;
     ErrLog := [] |}.


(** The pair [resp, err] that a raw call leaves. *)
Definition outcome_pair (o : Outcome) : option Response * option error :=
  match o with
  | Returned r => (Some r, None)
  | Failed r e => (r, Some e)
  end.

(** What a failed attempt of worker [n] at retry [i] does to the state [st]
    that it ran from: the entry goes through [log], and the worker blocks
    on its ticker, or is at the top of its loop with [resp] and the error
    as locals, unless the backoff strategy brought the program down. *)
Definition failure_recorded (w : World) (p : params) (st st' : state)
           (n : nat) (i : Z) (resp : option Response) (e : error) : Prop :=
  (client st', sink st')
  = log (client st) (sink st) (failure_entry w p (Z.of_nat n) i e) /\
  (workers st' !! n = Some Panicked /\ crashed st' = true \/
   workers st' !! n = Some Blocked \/
   workers st' !! n = Some (AtLoop (i + 1) resp (Some e))).

(** A request body or a body that [ioutil.ReadAll] fails on. *)
Definition body_unreadable (p : params) : Prop :=
  (exists rq b e, p_req p = Some rq /\ Body rq = Some b /\ rd_err b = Some e)
  \/ (exists b e, p_body p = Some b /\ rd_err b = Some e).

(** The number of line feeds of a string. *)
Fixpoint count_LF (s : string) : nat :=
  match s with
  | EmptyString => 0
  | String a s => (if Ascii.eqb a "010" then 1 else 0) + count_LF s
  end.

(** An entry none of whose texts has a line feed. *)
Definition single_line (e : ErrEntry) : Prop :=
  count_LF (e_Method e) = 0%nat /\ count_LF (e_Verb e) = 0%nat /\
  count_LF (e_URL e) = 0%nat /\ count_LF (fmt_error (e_Err e)) = 0%nat.

(** A transport on which every call comes back with the status 500. *)
Definition always_500 : World :=
  {| transport := fun _ =>
       Returned (mkResponse "500 Internal Server Error" 500);
     clock := fun _ i => 1700000000 + i |}.

(** A transport on which no call gets through. *)
Definition always_refused : World :=
  {| transport := fun _ => Failed None "connection refused";
     clock := fun _ i => 1700000000 + i |}.

(** Worker 0 of a GET call of [three_at_once], past the check of
    [finishCh] of its first iteration. *)
Definition first_attempt_pending : state :=
  set_worker (Client_Get three_at_once "http://h/") 0
             (Attempting 0 (Some empty_Response) None).

(** A reader that fails after two bytes. *)
Definition broken_reader : Reader :=
  {| rd_bytes := [Byte.x61; Byte.x62]; rd_err := Some "unexpected EOF" |}.

(** The strings of a list, one after the other. *)
Definition concat_lines (l : list string) : string :=
  foldr String.append "" l.

(** A client that keeps its log, with two entries recorded. *)
Definition two_failures : Client :=
  set_ErrLog three_at_once
    [ {| e_Time := 1700000000; e_Method := "Get"; e_URL := "http://h/";
         e_Verb := "GET"; e_Request := 0; e_Retry := 0;
         e_Err := Some "500 Internal Server Error" |};
      {| e_Time := 1700000001; e_Method := "Get"; e_URL := "http://h/";
         e_Verb := "GET"; e_Request := 2; e_Retry := 1;
         e_Err := Some "connection refused" |} ].

(** ** The history of a worker *)

Section History.

Variable w : World.
Variable p : params.

(** [resp, err] of worker [n] at the top of its iteration [m], when its
    attempts before [m] have failed. *)
Fixpoint locals (n : Z) (m : nat) : option Response * option error :=
  match m with
  | O => (Some empty_Response, None)
  | S m' =>
      match classify (route w p n (Z.of_nat m')
                        (fst (locals n m')) (snd (locals n m'))) with
      | Failure resp e => (resp, Some e)
      | _ => locals n m'
      end
  end.

(** The verdict on attempt [m] of worker [n]. *)
Definition verdict_at (n : Z) (m : nat) : verdict :=
  classify (route w p n (Z.of_nat m) (fst (locals n m)) (snd (locals n m))).

Definition failure_error (n : Z) (m : nat) : error :=
  match verdict_at n m with
  | Failure _ e => e
  | _ => ""
  end.

Definition failed_before (n : Z) (m : nat) : Prop :=
  forall j, (j < m)%nat -> exists resp e, verdict_at n j = Failure resp e.

(** The entry that worker [n] logs when its attempt [m] fails. *)
Definition logged_entry (n : Z) (m : nat) : ErrEntry :=
  failure_entry w p n (Z.of_nat m) (failure_error n m).

(** The result that worker [n] sends when its attempt [m] succeeds, and
    the one that it sends after [m] failed attempts that used up its
    retries. *)
Definition success_result (n : Z) (m : nat) (r : Response) : result :=
  {| res_resp := Some r; res_err := None;
     res_req := n; res_retry := Z.of_nat m |}.

Definition exhausted_result (n : Z) (m : nat) : result :=
  {| res_resp := fst (locals n m); res_err := snd (locals n m);
     res_req := 0; res_retry := 0 |}.

(** Worker [k] is in a state that fits [m] failed attempts, with [N]
    retries allowed. *)
Definition worker_ok (N : Z) (k : nat) (ws : wstate) (m : nat) : Prop :=
  failed_before (Z.of_nat k) m /\
  match ws with
  | AtLoop i resp err =>
      i = Z.of_nat m /\ (resp, err) = locals (Z.of_nat k) m /\
      (m = 0%nat \/ Z.of_nat m <= N)
  | Attempting i resp err =>
      i = Z.of_nat m /\ (resp, err) = locals (Z.of_nat k) m /\
      Z.of_nat m < N
  | Sending res =>
      (Z.of_nat m < N /\
       exists r, verdict_at (Z.of_nat k) m = Success r /\
                 res = success_result (Z.of_nat k) m r) \/
      (N <= Z.of_nat m /\ (m = 0%nat \/ Z.of_nat m <= N) /\
       res = exhausted_result (Z.of_nat k) m)
  | Blocked | Panicked | Done => True
  end.

(** The entries of worker [k] among those logged since the call began. *)
Definition entries_of (k : nat) (new : list ErrEntry) : list ErrEntry :=
  filter (fun e => e_Request e = Z.of_nat k) new.

Definition workers_ok (N : Z) (keep : bool) (new : list ErrEntry)
           (wl : list wstate) : Prop :=
  forall k ws, wl !! k = Some ws ->
    exists m, worker_ok N k ws m /\
              (keep = true ->
               entries_of k new = map (logged_entry (Z.of_nat k)) (seq 0 m)).

(** The fields of the client that a call leaves alone. *)
Definition same_config (c c' : Client) : Prop :=
  MaxRetries c' = MaxRetries c /\ KeepLog c' = KeepLog c /\
  Backoff c' = Backoff c /\ Concurrency c' = Concurrency c /\
  Logger c' = Logger c /\ LogWriter c' = LogWriter c /\
  LogRetries c' = LogRetries c.

(** The invariant of a call of the client [c]. *)
Definition call_inv (c : Client) (st : state) : Prop :=
  same_config c (client st) /\
  exists new, ErrLog (client st) = ErrLog c ++ new /\
              (KeepLog c = false -> new = []) /\
              workers_ok (MaxRetries c) (KeepLog c) new (workers st).

(** The verdict on the raw call of worker [n] at retry [i], and the
    error of a failed one. *)
Definition attempt_verdict (n i : Z) : verdict :=
  classify (outcome_pair (transport w (attempt_of p n i))).

Definition attempt_error (n i : Z) : option error :=
  match attempt_verdict n i with
  | Failure _ e => Some e
  | _ => None
  end.

Definition attempt_response (n i : Z) : option Response :=
  match attempt_verdict n i with
  | Failure resp _ => resp
  | Success r => Some r
  | NilResponse => None
  end.

End History.

(** Two concurrent requests, one retry each, the log kept. *)
Definition two_at_once : Client :=
  {| Concurrency := 2; MaxRetries := 1; Backoff := DefaultBackoff;
     KeepLog := true; Logger := false; LogWriter := false;
     LogRetries := false; Verbosity := 0; Threshold := "";
     LogTimeFormat := ""; SuccessReqNum := 7; SuccessRetryNum := 7;
     ErrLog := [] |}.

(** The specification's reading of the numbers that a call leaves in the
    client: the index of the worker whose outcome the orchestrator received,
    whether that outcome is a success or the failure of a worker out of
    retries. *)
Definition records_winner (w : World) (c : Client) (p : params) : Prop :=
  forall sched st k st',
    exec w p sched (pester c p) = Some st ->
    step w p (Recv k) st = Some st' ->
    SuccessReqNum (client st') = Z.of_nat k.

(** The entry that worker [n] logs for its failed raw call of retry [i]. *)
Definition attempt_entry (w : World) (p : params) (n : Z) (i : nat)
  : ErrEntry :=
  failure_entry w p n (Z.of_nat i)
                (default "" (attempt_error w p n (Z.of_nat i))).

(** A call can return: some schedule takes it to a state in which the
    orchestrator has returned. *)
Definition can_return (w : World) (c : Client) (p : params) : Prop :=
  exists sched st,
    exec w p sched (pester c p) = Some st /\ is_Some (returned st).

(** [Client{}]: every field at its zero value (a nil [Backoff] panics when
    it is called). *)
Definition zero_Client : Client :=
  {| Concurrency := 0; MaxRetries := 0; Backoff := fun _ => None;
     KeepLog := false; Logger := false; LogWriter := false;
     LogRetries := false; Verbosity := 0; Threshold := "";
     LogTimeFormat := ""; SuccessReqNum := 0; SuccessRetryNum := 0;
     ErrLog := [] |}.

(** One worker and no retry. *)
Definition no_retry : Client :=
  {| Concurrency := 1; MaxRetries := 0; Backoff := DefaultBackoff;
     KeepLog := true; Logger := false; LogWriter := false;
     LogRetries := false; Verbosity := 0; Threshold := "";
     LogTimeFormat := ""; SuccessReqNum := 0; SuccessRetryNum := 0;
     ErrLog := [] |}.

(** The steps that a worker with no retry to make still has: the test of
    its loop and the send. *)
Definition steps_left (ws : wstate) : nat :=
  match ws with
  | AtLoop _ _ _ => 2
  | Sending _ => 1
  | _ => 0
  end.

Definition total_steps_left (st : state) : nat :=
  sum_list (map steps_left (workers st)).

(** The result of a worker that made no attempt. *)
Definition idle_result : result :=
  {| res_resp := Some empty_Response; res_err := None;
     res_req := 0; res_retry := 0 |}.

(** The states of a call with a readable body whose client allows no
    retry. *)
Definition idle_inv (c : Client) (st : state) : Prop :=
  MaxRetries (client st) = MaxRetries c /\
  ErrLog (client st) = ErrLog c /\
  attempts st = [] /\ sink st = [] /\ crashed st = false /\
  (forall k ws, workers st !! k = Some ws ->
     ws = AtLoop 0 (Some empty_Response) None \/
     ws = Sending idle_result \/ ws = Done) /\
  (returned st = None -> forall k, workers st !! k <> Some Done) /\
  (forall r, returned st = Some r -> r = (Some empty_Response, None)).

(** The backoff strategy of [c] gives, at each of the first [N] retries, a
    duration that the ticker of the worker can wait for. *)
Definition backoff_waits (c : Client) (N : Z) : Prop :=
  forall i, 0 <= i < N ->
    exists d, Backoff c i = Some d /\
              0 < GoInt.add d (GoInt.mul 1 Microsecond).

(** Two retries at most, the log kept. *)
Definition two_retries : Client :=
  {| Concurrency := 1; MaxRetries := 2; Backoff := LinearBackoff;
     KeepLog := true; Logger := false; LogWriter := false;
     LogRetries := false; Verbosity := 0; Threshold := "";
     LogTimeFormat := ""; SuccessReqNum := 0; SuccessRetryNum := 0;
     ErrLog := [] |}.

(** The reading of [LogString] as exactly one line for each entry: as many
    line feeds as the log has entries. *)
Definition one_line_per_entry (c : Client) : Prop :=
  count_LF (LogString c) = length (ErrLog c).

(** A URL with a line feed in it. *)
Definition two_line_url : string :=
  "http://h/a" +:+ String "010" "b".

(** [DefaultClient] after a caller has turned its [KeepLog] on and made a
    call with it whose first attempt failed. *)
Definition used_DefaultClient : Client :=
  {| Concurrency := 1; MaxRetries := 3; Backoff := DefaultBackoff;
     KeepLog := true; Logger := false; LogWriter := false;
     LogRetries := false; Verbosity := 0; Threshold := "";
     LogTimeFormat := ""; SuccessReqNum := 0; SuccessRetryNum := 0;
     ErrLog := [ {| e_Time := 1700000000; e_Method := "Get";
                    e_URL := "http://h/"; e_Verb := "GET";
                    e_Request := 0; e_Retry := 0;
                    e_Err := Some "connection refused" |} ] |}.

(** The reading of the log of a new client as always empty. *)
Definition new_client_log_empty (d : Client) : Prop :=
  LogString (New d) = "".

(** ** Further definitions: waits, sinks, counts *)

(** The duration handed to [time.Tick] after a failed attempt:
    [c.Backoff(i) + 1*time.Microsecond]. *)
Definition tick_duration (d : Duration) : Duration :=
  GoInt.add d (GoInt.mul 1 Microsecond).

(** A client whose backoff strategy is the constant 0. *)
Definition zero_backoff : Client :=
  {| Concurrency := 1; MaxRetries := 3; Backoff := fun _ => Some 0;
     KeepLog := true; Logger := false; LogWriter := false;
     LogRetries := false; Verbosity := 0; Threshold := "";
     LogTimeFormat := ""; SuccessReqNum := 0; SuccessRetryNum := 0;
     ErrLog := [] |}.

(** The states of a call with one worker whose first attempt fails and
    whose first backoff cannot be waited for. *)
Definition stuck_inv (c : Client) (st : state) : Prop :=
  returned st = None /\ finished st = false /\
  MaxRetries (client st) = MaxRetries c /\
  Backoff (client st) = Backoff c /\
  (workers st = [AtLoop 0 (Some empty_Response) None] \/
   workers st = [Attempting 0 (Some empty_Response) None] \/
   workers st = [Blocked] \/ workers st = [Panicked]).

(** A client whose strategy gives a negative duration at the first
    retry. *)
Definition negative_backoff : Client :=
  {| Concurrency := 1; MaxRetries := 3;
     Backoff := fun i => Some (GoInt.mul (i - 1) Second);
     KeepLog := true; Logger := false; LogWriter := false;
     LogRetries := false; Verbosity := 0; Threshold := "";
     LogTimeFormat := ""; SuccessReqNum := 0; SuccessRetryNum := 0;
     ErrLog := [] |}.

(** The actions of the orchestrator. *)
Definition is_Recv (a : action) : bool :=
  match a with
  | Recv _ => true
  | Work _ => false
  end.

(** The workers that are past the check of [finishCh] and have their raw
    call still to make. *)
Definition attempting (ws : wstate) : nat :=
  match ws with
  | Attempting _ _ _ => 1
  | _ => 0
  end.

Definition count_attempting (st : state) : nat :=
  sum_list (map attempting (workers st)).

(** The number of receives of a schedule. *)
Definition count_Recv (sched : list action) : nat :=
  length (filter (fun a => is_Recv a = true) sched).

(** The raw calls that a worker can still make when [N] retries are
    allowed. *)
Definition retries_left (N : Z) (ws : wstate) : nat :=
  match ws with
  | AtLoop i _ _ => Z.to_nat (N - i)
  | Attempting i _ _ => S (Z.to_nat (N - (i + 1)))
  | _ => 0
  end.

Definition total_retries_left (st : state) : nat :=
  sum_list (map (retries_left (MaxRetries (client st))) (workers st)).

(** Five concurrent requests, three retries each. *)
Definition five_at_once : Client :=
  {| Concurrency := 5; MaxRetries := 3; Backoff := DefaultBackoff;
     KeepLog := true; Logger := false; LogWriter := false;
     LogRetries := false; Verbosity := 0; Threshold := "";
     LogTimeFormat := ""; SuccessReqNum := 0; SuccessRetryNum := 0;
     ErrLog := [] |}.

(** A transport on which every call gets the status 200. *)
Definition always_200 : World :=
  {| transport := fun _ => Returned (mkResponse "200 OK" 200);
     clock := fun _ i => 1700000000 + i |}.

(** The raw calls that a worker can still make when no call fails. *)
Definition calls_left (ws : wstate) : nat :=
  match ws with
  | AtLoop _ _ _ | Attempting _ _ _ => 1
  | _ => 0
  end.

Definition total_calls_left (st : state) : nat :=
  sum_list (map calls_left (workers st)).

(** Every raw call of the call [p] gets a response with a status below
    400. *)
Definition always_succeeds (w : World) (p : params) : Prop :=
  forall n i, exists r,
    transport w (attempt_of p n i) = Returned r /\ StatusCode r < 400.

(** What [Client.log] writes for one entry: to the external logger and to
    the raw writer, each when it is there, and only when [LogRetries] is
    on. *)
Definition sink_events (c : Client) (e : ErrEntry) : list SinkEvent :=
  if LogRetries c then
    (if Logger c then [ToLogger e] else [])
    ++ (if LogWriter c then [ToLogWriter e] else [])
  else [].

(** The invariant that ties the sinks to the log. *)
Definition sink_inv (c : Client) (st : state) : Prop :=
  same_config c (client st) /\
  exists new,
    ErrLog (client st) = ErrLog c ++ new /\
    (KeepLog c = true -> sink st = flat_map (sink_events c) new) /\
    ((forall e, sink_events c e = []) -> sink st = []).

(** A client with both sinks, that keeps its log and logs its retries. *)
Definition logs_everywhere : Client :=
  {| Concurrency := 1; MaxRetries := 2; Backoff := DefaultBackoff;
     KeepLog := true; Logger := true; LogWriter := true;
     LogRetries := true; Verbosity := 2; Threshold := "info";
     LogTimeFormat := LogStringTimeFormat;
     SuccessReqNum := 0; SuccessRetryNum := 0; ErrLog := [] |}.

(** An entry that a call [p] of a client with [W] workers and [N] retries
    logs: it names the call, a worker that was started and a retry that is
    allowed, it has the time at which that retry failed, and its error is
    not nil. *)
Definition entry_of_call (w : World) (p : params) (W : nat) (N : Z)
           (e : ErrEntry) : Prop :=
  e_Method e = p_method p /\ e_Verb e = p_verb p /\ e_URL e = p_url p /\
  is_Some (e_Err e) /\
  0 <= e_Request e < Z.of_nat W /\ 0 <= e_Retry e < N /\
  e_Time e = clock w (e_Request e) (e_Retry e).

(** The invariant on the entries that a call has logged. *)
Definition entries_inv (w : World) (p : params) (c : Client) (st : state)
  : Prop :=
  call_inv w p c st /\
  length (workers st) = length (workers (pester c p)) /\
  exists new,
    ErrLog (client st) = ErrLog c ++ new /\
    Forall (entry_of_call w p (length (workers (pester c p))) (MaxRetries c))
           new.

(** The steps that a worker can still take when [N] retries are allowed:
    two for each retry left, the send and its receipt. *)
Definition steps_bound (N : Z) (ws : wstate) : nat :=
  match ws with
  | AtLoop i _ _ => 2 * Z.to_nat (N - i) + 2
  | Attempting i _ _ => 2 * Z.to_nat (N - (i + 1)) + 3
  | Sending _ => 1
  | _ => 0
  end.

Definition total_steps_bound (st : state) : nat :=
  sum_list (map (steps_bound (MaxRetries (client st))) (workers st)).

(** The states of a call whose backoff durations can be waited for: no
    worker is blocked on its ticker or has panicked, a worker is done only
    once the call has returned, and [finishCh] is open until then. *)
Definition live_inv (c : Client) (st : state) : Prop :=
  crashed st = false /\
  MaxRetries (client st) = MaxRetries c /\
  Backoff (client st) = Backoff c /\
  (forall k ws, workers st !! k = Some ws ->
     match ws with
     | AtLoop i _ _ => 0 <= i
     | Attempting i _ _ => 0 <= i < MaxRetries c
     | Sending _ => True
     | Done => is_Some (returned st)
     | Blocked | Panicked => False
     end) /\
  (returned st = None -> finished st = false).
(** * Properties *)

(** ** Machine integers *)

Module GoIntFacts.
Import GoInt.

Lemma wrap64_small z : min_int <= z <= max_int -> wrap64 z = z.
Proof.
  unfold wrap64, min_int, max_int. intros Hz.
  rewrite Z.mod_small by lia. lia.
Qed.

Lemma wrap64_range z : min_int <= wrap64 z <= max_int.
Proof.
  unfold wrap64, min_int, max_int.
  pose proof (Z.mod_pos_bound (z + 2 ^ 63) (2 ^ 64)). lia.
Qed.

Lemma mul_small a b : min_int <= a * b <= max_int -> mul a b = a * b.
Proof. apply wrap64_small. Qed.

Lemma add_small a b : min_int <= a + b <= max_int -> add a b = a + b.
Proof. apply wrap64_small. Qed.

Lemma sub_small a b : min_int <= a - b <= max_int -> sub a b = a - b.
Proof. apply wrap64_small. Qed.

Lemma div_small a b :
  0 <= a <= max_int -> 0 < b -> div a b = a / b.
Proof.
  intros Ha Hb. unfold div. rewrite Z.quot_div_nonneg by lia.
  apply wrap64_small. unfold min_int, max_int in *.
  pose proof (Z.div_pos a b). pose proof (Z.div_le_upper_bound a b (2 ^ 63 - 1)).
  nia.
Qed.

End GoIntFacts.

(** ** Backoff strategies *)

Lemma Second_eq : Second = 1000000000.
Proof. reflexivity. Qed.

Lemma Millisecond_eq : Millisecond = 1000000.
Proof. reflexivity. Qed.

Lemma DefaultBackoff_const i : DefaultBackoff i = Some Second.
Proof. reflexivity. Qed.

Lemma LinearBackoff_exact i :
  0 <= i <= 9223372036 -> LinearBackoff i = Some (i * Second).
Proof.
  intros Hi. unfold LinearBackoff. f_equal.
  apply GoIntFacts.mul_small. rewrite Second_eq.
  unfold GoInt.min_int, GoInt.max_int. lia.
Qed.

Lemma pow2_int_exact i : 0 <= i <= 62 -> pow2_int i = Some (2 ^ i).
Proof.
  intros Hi. unfold pow2_int.
  destruct (Z.ltb_spec i 0); [lia|].
  destruct (Z.leb_spec i 62); [reflexivity|lia].
Qed.

Lemma ExponentialBackoff_exact i :
  0 <= i <= 33 -> ExponentialBackoff i = Some (2 ^ i * Second).
Proof.
  intros Hi. unfold ExponentialBackoff.
  rewrite pow2_int_exact by lia. simpl. f_equal.
  apply GoIntFacts.mul_small. rewrite Second_eq.
  assert (0 < 2 ^ i <= 2 ^ 33) as Hp.
  { split; [apply Z.pow_pos_nonneg; lia|apply Z.pow_le_mono_r; lia]. }
  unfold GoInt.min_int, GoInt.max_int. lia.
Qed.

Lemma jitter_no_overflow rng now i :
  0 <= i <= 6917529027 ->
  jitter rng now i = Some (jitter_ms rng now i * Millisecond).
Proof.
  intros Hi. unfold jitter, jitter_ms, Intn.
  assert (GoInt.mul i 1000 = i * 1000) as ->.
  { apply GoIntFacts.mul_small. unfold GoInt.min_int, GoInt.max_int. lia. }
  assert (GoInt.div (i * 1000) 3 = i * 1000 / 3) as ->.
  { apply GoIntFacts.div_small; unfold GoInt.max_int; lia. }
  pose proof (Z.div_pos (i * 1000) 3 ltac:(lia) ltac:(lia)) as Hq.
  assert (i * 1000 / 3 <= 2305843009000) as Hq'.
  { apply Z.div_le_upper_bound; lia. }
  assert (GoInt.add (i * 1000 / 3) 1 = i * 1000 / 3 + 1) as ->.
  { apply GoIntFacts.add_small. unfold GoInt.min_int, GoInt.max_int. lia. }
  destruct (Z.leb_spec (i * 1000 / 3 + 1) 0) as [?|_]; [lia|].
  simpl.
  pose proof (Z.mod_pos_bound (rng now 0%nat) (i * 1000 / 3 + 1) ltac:(lia))
    as Hj.
  set (j := rng now 0%nat mod (i * 1000 / 3 + 1)) in *.
  assert (GoInt.add (i * 1000) j = i * 1000 + j) as ->.
  { apply GoIntFacts.add_small. unfold GoInt.min_int, GoInt.max_int. lia. }
  assert (GoInt.sub (i * 1000) j = i * 1000 - j) as ->.
  { apply GoIntFacts.sub_small. unfold GoInt.min_int, GoInt.max_int. lia. }
  f_equal. apply GoIntFacts.mul_small. rewrite Millisecond_eq.
  unfold GoInt.min_int, GoInt.max_int.
  destruct (rng now 1%nat mod 2 =? 1);
    match goal with |- context [?a <=? 0] => destruct (Z.leb_spec a 0) end;
    lia.
Qed.

Lemma jitter_ms_bounds rng now i :
  0 <= i ->
  let B := i * 1000 in
  Z.max 1 (B - B / 3) <= jitter_ms rng now i <= Z.max 1 (B + B / 3).
Proof.
  intros Hi B. unfold jitter_ms. fold B.
  pose proof (Z.div_pos B 3 ltac:(lia) ltac:(lia)) as Hq.
  pose proof (Z.mod_pos_bound (rng now 0%nat) (B / 3 + 1) ltac:(lia)) as Hj.
  assert (3 * (B / 3) <= B) as Hm by (apply Z.mul_div_le; lia).
  destruct (rng now 1%nat mod 2 =? 1);
    match goal with |- context [?a <=? 0] => destruct (Z.leb_spec a 0) end;
    lia.
Qed.

Lemma jitter_in_interval rng now i :
  0 <= i <= 6917529027 ->
  exists d, jitter rng now i = Some d /\
            jitter_interval (i * 1000) d /\ 0 < d /\
            (i = 0 -> d = 1 * Millisecond) /\
            (0 < i -> spec_jitter_interval (i * 1000) d).
Proof.
  intros Hi. exists (jitter_ms rng now i * Millisecond).
  split; [by apply jitter_no_overflow|].
  pose proof (jitter_ms_bounds rng now i ltac:(lia)) as Hb. cbv zeta in Hb.
  unfold jitter_interval, spec_jitter_interval. rewrite Millisecond_eq.
  pose proof (Z.div_pos (i * 1000) 3 ltac:(lia) ltac:(lia)) as Hq.
  assert (3 * (i * 1000 / 3) <= i * 1000) as Hm by (apply Z.mul_div_le; lia).
  set (q := i * 1000 / 3) in *.
  set (m := jitter_ms rng now i) in *.
  repeat split; try lia.
Qed.

(** C7 (as amended).  Where the arithmetic stays inside 64 bits, a jittered
    backoff of base [B] milliseconds is between [max(1, B - B/3)] and
    [max(1, B + B/3)] milliseconds, hence strictly positive: for a base of
    0 it is exactly 1 millisecond, and for a positive base it is in the
    interval [[B - B/3, B + B/3]].  The base of the linear strategy at index
    [i] is [1000 * i], that of the exponential strategy is [1000 * 2^i]. *)
Theorem jittered_backoff_interval (rng : Z -> nat -> Z) (now i : Z) :
  0 <= i ->
  (i <= 6917529027 ->
   exists d, LinearJitterBackoff rng now i = Some d /\
             jitter_interval (i * 1000) d /\ 0 < d /\
             (i = 0 -> d = 1 * Millisecond) /\
             (0 < i -> spec_jitter_interval (i * 1000) d)) /\
  (i <= 32 ->
   exists d, ExponentialJitterBackoff rng now i = Some d /\
             jitter_interval (2 ^ i * 1000) d /\ 0 < d /\
             spec_jitter_interval (2 ^ i * 1000) d).
Proof.
  intros Hi. split; intros Hle.
  - unfold LinearJitterBackoff. apply jitter_in_interval. lia.
  - unfold ExponentialJitterBackoff. rewrite pow2_int_exact by lia. simpl.
    assert (0 < 2 ^ i <= 2 ^ 32) as Hp.
    { split; [apply Z.pow_pos_nonneg; lia|apply Z.pow_le_mono_r; lia]. }
    destruct (jitter_in_interval rng now (2 ^ i) ltac:(lia))
      as (d & Hd & Hint & Hpos & _ & Hspec).
    exists d. split; [exact Hd|]. split; [exact Hint|].
    split; [exact Hpos|]. apply Hspec. lia.
Qed.

Lemma jittered_backoff_interval_witness :
  0 <= 2 /\
  (exists d, LinearJitterBackoff (fun _ _ => 5) 0 2 = Some d /\
             jitter_interval (2 * 1000) d /\ 0 < d /\
             (2 = 0 -> d = 1 * Millisecond) /\
             (0 < 2 -> spec_jitter_interval (2 * 1000) d)) /\
  (exists d, ExponentialJitterBackoff (fun _ _ => 5) 0 2 = Some d /\
             jitter_interval (2 ^ 2 * 1000) d /\ 0 < d /\
             spec_jitter_interval (2 ^ 2 * 1000) d).
Proof.
  split; [lia|].
  split; apply (jittered_backoff_interval (fun _ _ => 5) 0 2); lia.
Defined.

(** At index 0 the base is 0 milliseconds and the linear-jitter backoff is
    1 millisecond, above the upper end [B + B/3 = 0] of the interval of the
    specification. *)
Lemma LinearJitterBackoff_zero_outside_spec_interval :
  exists d, LinearJitterBackoff (fun _ _ => 0) 0 0 = Some d /\
            ~ spec_jitter_interval (0 * 1000) d.
Proof.
  exists (1 * Millisecond). split; [reflexivity|].
  unfold spec_jitter_interval. intros [_ Hup].
  vm_compute in Hup. by apply Hup.
Qed.

(** C8 (as amended).  The fixed strategy is 1 second at every index; the
    linear strategy is [i] seconds for [0 <= i <= 9223372036] and the
    exponential strategy is [2^i] seconds for [0 <= i <= 33], the indices at
    which that many nanoseconds fit a 64-bit duration. *)
Theorem backoff_strategies_exact (i : Z) :
  0 <= i ->
  (forall j, DefaultBackoff j = Some (1 * Second)) /\
  (i <= 9223372036 -> LinearBackoff i = Some (i * Second)) /\
  (i <= 33 -> ExponentialBackoff i = Some (2 ^ i * Second)).
Proof.
  intros Hi. split; [|split].
  - intros j. apply DefaultBackoff_const.
  - intros Hle. apply LinearBackoff_exact. lia.
  - intros Hle. apply ExponentialBackoff_exact. lia.
Qed.

Lemma backoff_strategies_exact_witness :
  0 <= 5 /\
  (forall j, DefaultBackoff j = Some (1 * Second)) /\
  LinearBackoff 5 = Some (5 * Second) /\
  ExponentialBackoff 5 = Some (2 ^ 5 * Second).
Proof.
  destruct (backoff_strategies_exact 5 ltac:(lia)) as (Hd & Hl & He).
  split; [lia|]. split; [exact Hd|]. split; [apply Hl|apply He]; lia.
Defined.

(** At index 34 the exponential strategy is not [2^34] seconds: that many
    nanoseconds do not fit 64 bits and the product wraps to a negative
    duration. *)
Lemma ExponentialBackoff_34_wraps :
  ExponentialBackoff 34 = Some (-1266874889709551616) /\
  ExponentialBackoff 34 <> Some (2 ^ 34 * Second).
Proof. split; [reflexivity|discriminate]. Qed.

(** ** Effective concurrency *)

Lemma concurrency_GET c p :
  p_verb p = "GET" -> concurrency c p = Concurrency c.
Proof. intros Hv. unfold concurrency. by rewrite Hv. Qed.

Lemma concurrency_other c p :
  p_verb p <> "GET" -> concurrency c p = 1.
Proof.
  intros Hv. unfold concurrency.
  destruct (String.eqb_spec (p_verb p) "GET"); [done|reflexivity].
Qed.

Lemma pester_workers c p bs :
  read_bodies p = inr bs ->
  workers (pester c p)
  = replicate (Z.to_nat (concurrency c p))
              (AtLoop 0 (Some empty_Response) None).
Proof. intros Hb. unfold pester. by rewrite Hb. Qed.

Lemma read_bodies_no_body p :
  p_body p = None ->
  (forall rq, p_req p = Some rq -> Body rq = None) ->
  read_bodies p = inr ([], []).
Proof.
  intros Hb Hr. unfold read_bodies. rewrite Hb.
  destruct (p_req p) as [rq|]; [|done]. by rewrite (Hr rq eq_refl).
Qed.

(** C1 (as amended).  The configured concurrency is used when the verb of
    the call is GET, that is for [Get] and for a [Do] whose request has
    the method GET, and every other call ([Head], [Post], [PostForm], a
    [Do] with another method) runs with one worker.  A call with a readable
    body starts as many workers as its effective concurrency, none when
    that number is 0 or negative. *)
Theorem concurrency_by_verb (c : Client) :
  (forall p, concurrency c p
             = if String.eqb (p_verb p) "GET" then Concurrency c else 1) /\
  (forall p bs, read_bodies p = inr bs ->
     length (workers (pester c p)) = Z.to_nat (concurrency c p)) /\
  (forall url,
     length (workers (Client_Get c url)) = Z.to_nat (Concurrency c)) /\
  (forall url, length (workers (Client_Head c url)) = 1%nat) /\
  (forall url bt body bs,
     read_bodies (Post_params url bt body) = inr bs ->
     length (workers (Client_Post c url bt body)) = 1%nat) /\
  (forall url data, length (workers (Client_PostForm c url data)) = 1%nat) /\
  (forall rq bs,
     read_bodies (Do_params rq) = inr bs ->
     length (workers (Client_Do c rq))
     = if String.eqb (Method rq) "GET" then Z.to_nat (Concurrency c)
       else 1%nat).
Proof.
  assert (forall p bs, read_bodies p = inr bs ->
            length (workers (pester c p)) = Z.to_nat (concurrency c p))
    as Hlen.
  { intros p bs Hb. rewrite (pester_workers c p bs Hb).
    apply length_replicate. }
  split; [|split; [exact Hlen|]].
  { intros p. unfold concurrency. by destruct (String.eqb (p_verb p) "GET"). }
  split; [|split; [|split; [|split]]].
  - intros url. unfold Client_Get.
    by rewrite (Hlen _ _ (read_bodies_no_body (Get_params url) eq_refl
                            ltac:(discriminate))).
  - intros url. unfold Client_Head.
    by rewrite (Hlen _ _ (read_bodies_no_body (Head_params url) eq_refl
                            ltac:(discriminate))).
  - intros url bt body bs Hb. unfold Client_Post. by rewrite (Hlen _ _ Hb).
  - intros url data. unfold Client_PostForm.
    by rewrite (Hlen _ _ (read_bodies_no_body (PostForm_params url data)
                            eq_refl ltac:(discriminate))).
  - intros rq bs Hb. unfold Client_Do. rewrite (Hlen _ _ Hb).
    unfold concurrency. simpl. by destruct (String.eqb (Method rq) "GET").
Qed.

Lemma concurrency_by_verb_witness :
  length (workers (Client_Post three_at_once "http://h/" "text/plain"
                     (Some (mkReader [] None)))) = 1%nat /\
  length (workers (Client_Do three_at_once (mkRequest "GET" "http://h/" None)))
  = 3%nat.
Proof.
  destruct (concurrency_by_verb three_at_once)
    as (_ & _ & _ & _ & Hpost & _ & Hdo).
  split.
  - exact (Hpost "http://h/" "text/plain" (Some (mkReader [] None))
                 ([], []) eq_refl).
  - exact (Hdo (mkRequest "GET" "http://h/" None) ([], []) eq_refl).
Defined.

(** A HEAD call of a client configured for three concurrent requests runs
    one worker, where the specification has three. *)
Lemma Head_runs_one_worker :
  spec_concurrency three_at_once (Head_params "http://h/") = 3 /\
  length (workers (Client_Head three_at_once "http://h/")) = 1%nat /\
  Z.of_nat (length (workers (Client_Head three_at_once "http://h/")))
  <> spec_concurrency three_at_once (Head_params "http://h/").
Proof. split; [reflexivity|]. split; [reflexivity|]. discriminate. Qed.

(** ** Classification of an attempt *)

Lemma route_known w p n i resp err :
  known_method (p_method p) = true ->
  route w p n i resp err = outcome_pair (transport w (attempt_of p n i)).
Proof.
  intros Hk. unfold route, outcome_pair. rewrite Hk.
  by destruct (transport w (attempt_of p n i)).
Qed.

Lemma entry_params_known p :
  entry_params p -> known_method (p_method p) = true.
Proof. by destruct 1. Qed.

Lemma classify_success ro :
  (exists r, classify ro = Success r)
  <-> snd ro = None /\ exists r, fst ro = Some r /\ StatusCode r < 400.
Proof.
  destruct ro as [[r|] [e|]]; simpl.
  - split; [intros [? [=]]|intros [[=] _]].
  - destruct (Z.ltb_spec (StatusCode r) 400).
    + split; [intros _|eauto]. split; [done|]. by exists r.
    + split; [intros [? [=]]|]. intros [_ (r' & [= <-] & ?)]. lia.
  - split; [intros [? [=]]|intros [[=] _]].
  - split; [intros [? [=]]|]. by intros [_ (r' & [=] & _)].
Qed.

Lemma classify_status_failure r :
  400 <= StatusCode r ->
  classify (Some r, None) = Failure (Some r) (Errorf_v (Status r)).
Proof.
  intros Hs. simpl. destruct (Z.ltb_spec (StatusCode r) 400); [lia|done].
Qed.

Lemma work_attempting w p n st i resp err :
  crashed st = false ->
  workers st !! n = Some (Attempting i resp err) ->
  exists st', work w p n st = Some st' /\
    match classify (route w p (Z.of_nat n) i resp err) with
    | Success r =>
        workers st' !! n
        = Some (Sending (mkResult (Some r) None (Z.of_nat n) i)) /\
        client st' = client st /\ sink st' = sink st /\ crashed st' = false
    | Failure resp' e => failure_recorded w p st st' n i resp' e
    | NilResponse =>
        workers st' !! n = Some Panicked /\ crashed st' = true
    end.
Proof.
  intros Hc Hw. unfold work. rewrite Hc, Hw.
  pose proof (lookup_lt_Some _ _ _ Hw) as Hlt.
  destruct (classify (route w p (Z.of_nat n) i resp err)) as [r|resp' e|].
  - eexists. split; [reflexivity|]. simpl.
    by rewrite list_lookup_insert_eq.
  - unfold failure_recorded.
    destruct (log (client st) (sink st) (failure_entry w p (Z.of_nat n) i e))
      as [c' out'] eqn:Hlog.
    destruct (Backoff (client st) i) as [d|].
    + eexists. split; [reflexivity|]. simpl. split; [done|].
      rewrite list_lookup_insert_eq by done.
      destruct (GoInt.add d (GoInt.mul 1 Microsecond) <=? 0); auto.
    + eexists. split; [reflexivity|]. simpl. split; [done|].
      rewrite list_lookup_insert_eq by done. auto.
  - eexists. split; [reflexivity|]. simpl.
    by rewrite list_lookup_insert_eq.
Qed.



(** ** Schedules *)

(** A lookup in a list of workers in which worker [n] was replaced: the
    index looked up is [n], and the state found is the new one, or it is
    another index, and the lookup is one in the old list. *)
Ltac lookup_insert_cases H k n :=
  destruct (decide (k = n)) as [->|?];
  [ apply list_lookup_insert_Some in H as [(_ & H & _)|[? _]]; [|done]
  | rewrite list_lookup_insert_ne in H by done ].

Lemma exec_app w p s1 s2 st :
  exec w p (s1 ++ s2) st = st' ← exec w p s1 st; exec w p s2 st'.
Proof.
  revert st. induction s1 as [|a s1 IH]; intros st; simpl; [done|].
  destruct (step w p a st) as [st1|]; simpl; [apply IH|done].
Qed.

(** A property of the start that every enabled action keeps holds after
    every schedule. *)
Lemma exec_invariant w p (P : state -> Prop) :
  (forall a st st', P st -> step w p a st = Some st' -> P st') ->
  forall sched st st', P st -> exec w p sched st = Some st' -> P st'.
Proof.
  intros Hstep sched. induction sched as [|a sched IH]; intros st st' HP.
  - intros [= <-]. exact HP.
  - simpl. destruct (step w p a st) as [st1|] eqn:Ha; simpl; [|done].
    apply IH. by eapply Hstep.
Qed.

Lemma step_no_workers w p a st :
  workers st = [] -> step w p a st = None.
Proof.
  intros Hw. destruct a as [n|n]; simpl; unfold work, recv; rewrite Hw.
  - by destruct (crashed st).
  - destruct (crashed st); [done|]. by destruct (returned st).
Qed.

(** ** Body-read errors *)

Lemma read_bodies_unreadable p :
  body_unreadable p ->
  read_bodies p = inl (errors_New "error reading request body") \/
  read_bodies p = inl (errors_New "error reading body").
Proof.
  unfold read_bodies.
  intros [(rq & b & e & Hrq & Hb & He)|(b & e & Hb & He)].
  - left. rewrite Hrq, Hb. unfold ReadAll. by rewrite He.
  - destruct (p_req p) as [rq|].
    + destruct (Body rq) as [b'|].
      * rewrite Hb. unfold ReadAll. rewrite He.
        destruct (rd_err b'); simpl; auto.
      * right. rewrite Hb. unfold ReadAll. by rewrite He.
    + right. rewrite Hb. unfold ReadAll. by rewrite He.
Qed.

(** C6.  When the body of the request, or the body given to the call,
    cannot be read to its end, the call has returned the body-read error
    (an error with a fixed text, next to an empty response) before any
    goroutine starts: there is no worker and no action to take, so that no
    attempt is made and the client, its log included, is as it was. *)
Theorem body_read_error_is_fatal (w : World) (c : Client) (p : params) :
  body_unreadable p ->
  exists e,
    (e = errors_New "error reading request body" \/
     e = errors_New "error reading body") /\
    pester c p
    = {| client := c; workers := []; finished := false;
         returned := Some (Some empty_Response, Some e);
         attempts := []; sink := []; crashed := false |} /\
    (forall a, step w p a (pester c p) = None) /\
    (forall sched st,
       exec w p sched (pester c p) = Some st ->
       sched = [] /\ st = pester c p /\ attempts st = [] /\
       ErrLog (client st) = ErrLog c).
Proof.
  intros Hu.
  assert (exists e,
    (e = errors_New "error reading request body" \/
     e = errors_New "error reading body") /\
    pester c p
    = {| client := c; workers := []; finished := false;
         returned := Some (Some empty_Response, Some e);
         attempts := []; sink := []; crashed := false |})
    as (e & He & Hp).
  { unfold pester.
    destruct (read_bodies_unreadable p Hu) as [-> | ->]; eauto. }
  exists e. split; [exact He|]. split; [exact Hp|].
  assert (forall a, step w p a (pester c p) = None) as Hnone.
  { intros a. apply step_no_workers. by rewrite Hp. }
  split; [exact Hnone|].
  intros [|a sched] st; simpl.
  - intros [= <-]. rewrite Hp. done.
  - by rewrite Hnone.
Qed.

Lemma body_read_error_is_fatal_witness :
  exists e,
    (e = errors_New "error reading request body" \/
     e = errors_New "error reading body") /\
    pester three_at_once
           (Post_params "http://h/" "text/plain" (Some broken_reader))
    = {| client := three_at_once; workers := []; finished := false;
         returned := Some (Some empty_Response, Some e);
         attempts := []; sink := []; crashed := false |} /\
    (forall a,
       step always_500
            (Post_params "http://h/" "text/plain" (Some broken_reader)) a
            (pester three_at_once
               (Post_params "http://h/" "text/plain" (Some broken_reader)))
       = None) /\
    (forall sched st,
       exec always_500
            (Post_params "http://h/" "text/plain" (Some broken_reader)) sched
            (pester three_at_once
               (Post_params "http://h/" "text/plain" (Some broken_reader)))
       = Some st ->
       sched = [] /\
       st = pester three_at_once
              (Post_params "http://h/" "text/plain" (Some broken_reader)) /\
       attempts st = [] /\ ErrLog (client st) = ErrLog three_at_once).
Proof.
  apply (body_read_error_is_fatal always_500 three_at_once
           (Post_params "http://h/" "text/plain" (Some broken_reader))).
  right. exists broken_reader, "unexpected EOF". split; reflexivity.
Defined.

(** ** The rendering of the log *)

Lemma string_app_cons a s t : String a s +:+ t = String a (s +:+ t).
Proof. reflexivity. Qed.

Lemma string_app_nil_l s : "" +:+ s = s.
Proof. reflexivity. Qed.

Lemma string_app_nil_r s : s +:+ "" = s.
Proof. induction s as [|a s IH]; [done|]. by rewrite string_app_cons, IH. Qed.

Lemma string_app_assoc s t u : (s +:+ t) +:+ u = s +:+ (t +:+ u).
Proof. induction s as [|a s IH]; [done|]. by rewrite !string_app_cons, IH. Qed.

Lemma count_LF_app s t : count_LF (s +:+ t) = (count_LF s + count_LF t)%nat.
Proof.
  induction s as [|a s IH]; [done|].
  rewrite string_app_cons. simpl. rewrite IH. lia.
Qed.

Lemma count_LF_pretty_N_char x s :
  count_LF (String (pretty_N_char x) s) = count_LF s.
Proof. unfold pretty_N_char. by repeat case_match. Qed.

Lemma count_LF_pretty_N_go x s :
  count_LF (pretty_N_go x s) = count_LF s.
Proof.
  revert s. induction (N.lt_wf_0 x) as [x _ IH]; intros s.
  assert (x = 0 \/ 0 < x)%N as [->|Hx] by lia.
  - by rewrite pretty_N_go_0.
  - rewrite pretty_N_go_step by done.
    rewrite IH by (by apply N.div_lt). apply count_LF_pretty_N_char.
Qed.

Lemma count_LF_pretty_N (x : N) : count_LF (pretty x) = 0%nat.
Proof.
  unfold pretty, pretty_N. case_decide; [done|].
  by rewrite count_LF_pretty_N_go.
Qed.

Lemma count_LF_pretty_Z (x : Z) : count_LF (pretty x) = 0%nat.
Proof.
  unfold pretty, pretty_Z. destruct x as [|x|x]; [done|..].
  - apply (count_LF_pretty_N (N.pos x)).
  - rewrite count_LF_app. simpl. apply (count_LF_pretty_N (N.pos x)).
Qed.

Lemma count_LF_Sprintf_entry e :
  single_line e -> count_LF (Sprintf_entry e) = 1%nat.
Proof.
  intros (Hm & Hv & Hu & He). unfold Sprintf_entry.
  rewrite !count_LF_app, !count_LF_pretty_Z, Hm, Hv, Hu, He. reflexivity.
Qed.

Lemma fold_left_append (f : ErrEntry -> string) l acc :
  fold_left (fun res e => res +:+ f e) l acc
  = acc +:+ concat_lines (map f l).
Proof.
  revert acc. induction l as [|e l IH]; intros acc; simpl.
  - by rewrite string_app_nil_r.
  - rewrite IH. unfold concat_lines. simpl. by rewrite string_app_assoc.
Qed.

Lemma LogString_concat c :
  LogString c = concat_lines (map Sprintf_entry (ErrLog c)).
Proof. unfold LogString. by rewrite fold_left_append, string_app_nil_l. Qed.

Lemma concat_lines_app l1 l2 :
  concat_lines (l1 ++ l2) = concat_lines l1 +:+ concat_lines l2.
Proof.
  unfold concat_lines. induction l1 as [|s l1 IH]; simpl; [done|].
  by rewrite IH, string_app_assoc.
Qed.

Lemma count_LF_LogString c :
  Forall single_line (ErrLog c) ->
  count_LF (LogString c) = length (ErrLog c).
Proof.
  rewrite LogString_concat. unfold concat_lines.
  induction 1 as [|e l He _ IH]; simpl; [done|].
  by rewrite count_LF_app, count_LF_Sprintf_entry, IH.
Qed.

Lemma count_LF_Sprintf_entry_ge e : (1 <= count_LF (Sprintf_entry e))%nat.
Proof. unfold Sprintf_entry. rewrite !count_LF_app. simpl. lia. Qed.

Lemma count_LF_LogString_ge c :
  (length (ErrLog c) <= count_LF (LogString c))%nat.
Proof.
  rewrite LogString_concat. unfold concat_lines.
  induction (ErrLog c) as [|e l IH]; simpl; [done|].
  rewrite count_LF_app. pose proof (count_LF_Sprintf_entry_ge e). lia.
Qed.

(** C9 (as amended).  [LogString] is the rendering of the entries of
    [ErrLog], one after the other in the order of the log, each as
    [<unix-seconds> <method> [<verb>] to <url> request-<worker> retry-<retry>
    error: <error>] and a line feed; it is empty for an empty log and a new
    entry adds its rendering at the end.  The string has at least one line
    for each entry, and exactly one, as many line feeds as the log has
    entries, when no method, verb, URL or error text of an entry has a
    line feed of its own. *)
Theorem LogString_one_line_per_entry (c : Client) :
  LogString c = concat_lines (map Sprintf_entry (ErrLog c)) /\
  (forall e,
     Sprintf_entry e
     = pretty (e_Time e) +:+ " " +:+ e_Method e +:+ " [" +:+ e_Verb e
       +:+ "] to " +:+ e_URL e +:+ " request-" +:+ pretty (e_Request e)
       +:+ " retry-" +:+ pretty (e_Retry e) +:+ " error: "
       +:+ fmt_error (e_Err e) +:+ String "010" "") /\
  (ErrLog c = [] -> LogString c = "") /\
  (forall e,
     LogString (set_ErrLog c (ErrLog c ++ [e]))
     = LogString c +:+ Sprintf_entry e) /\
  (Forall single_line (ErrLog c) ->
   count_LF (LogString c) = length (ErrLog c)) /\
  (length (ErrLog c) <= count_LF (LogString c))%nat.
Proof.
  split; [apply LogString_concat|]. split; [done|].
  split; [by intros Hnil; unfold LogString; rewrite Hnil|].
  split; [|split; [apply count_LF_LogString|apply count_LF_LogString_ge]].
  intros e. rewrite !LogString_concat. simpl.
  rewrite map_app, concat_lines_app. unfold concat_lines at 2. simpl.
  by rewrite string_app_nil_r.
Qed.

Lemma LogString_one_line_per_entry_witness :
  LogString two_failures
  = "1700000000 Get [GET] to http://h/ request-0 retry-0 error: 500 Internal Server Error
1700000001 Get [GET] to http://h/ request-2 retry-1 error: connection refused
" /\
  count_LF (LogString two_failures) = 2%nat /\
  LogString (New DefaultClient) = "".
Proof.
  split; [reflexivity|]. split.
  - destruct (LogString_one_line_per_entry two_failures)
      as (_ & _ & _ & _ & Hcount & _).
    apply Hcount. repeat constructor.
  - destruct (LogString_one_line_per_entry (New DefaultClient))
      as (_ & _ & Hnil & _).
    by apply Hnil.
Defined.

(** A GET of a URL that has a line feed in it fails once, with the log
    kept: the log has one entry, and [LogString] has two lines for it,
    because [%s] prints the URL as it is. *)
Lemma line_feed_in_URL_makes_two_lines :
  exists st,
    exec always_refused (Get_params two_line_url) [Work 0; Work 0]
         (Client_Get three_at_once two_line_url) = Some st /\
    length (ErrLog (client st)) = 1%nat /\
    count_LF (LogString (client st)) = 2%nat /\
    ~ one_line_per_entry (client st).
Proof.
  destruct (exec always_refused (Get_params two_line_url) [Work 0; Work 0]
              (Client_Get three_at_once two_line_url)) as [st|] eqn:Hex;
    [|by vm_compute in Hex].
  exists st. split; [done|].
  vm_compute in Hex. injection Hex as <-.
  split; [reflexivity|]. split; [by vm_compute|].
  unfold one_line_per_entry. by vm_compute.
Qed.

(** ** The invariant of a call *)

Section CallInvariant.

Variable w : World.
Variable p : params.
Variable c : Client.

Lemma same_config_refl : same_config c c.
Proof. by repeat split. Qed.

Lemma same_config_set_ErrLog c' l :
  same_config c c' -> same_config c (set_ErrLog c' l).
Proof. done. Qed.

Lemma same_config_set_Success c' a b :
  same_config c c' -> same_config c (set_Success c' a b).
Proof. done. Qed.

Lemma log_client c' out e :
  (log c' out e).1
  = if KeepLog c' then set_ErrLog c' (ErrLog c' ++ [e]) else c'.
Proof. reflexivity. Qed.

Lemma same_config_log c' out e :
  same_config c c' -> same_config c (log c' out e).1.
Proof. intros H. rewrite log_client. by destruct (KeepLog c'). Qed.

Lemma entries_of_snoc_same k new e :
  e_Request e = Z.of_nat k ->
  entries_of k (new ++ [e]) = entries_of k new ++ [e].
Proof.
  intros He. unfold entries_of. rewrite filter_app. f_equal.
  by rewrite filter_cons_True.
Qed.

Lemma entries_of_snoc_other k n new e :
  e_Request e = Z.of_nat n -> k <> n ->
  entries_of k (new ++ [e]) = entries_of k new.
Proof.
  intros He Hne. unfold entries_of. rewrite filter_app.
  rewrite filter_cons_False; [by rewrite app_nil_r|].
  rewrite He. lia.
Qed.

(** Worker [n] moves on, nothing is logged. *)
Lemma workers_ok_move new wl n ws' m' :
  workers_ok w p (MaxRetries c) (KeepLog c) new wl ->
  worker_ok w p (MaxRetries c) n ws' m' ->
  (KeepLog c = true ->
   entries_of n new = map (logged_entry w p (Z.of_nat n)) (seq 0 m')) ->
  workers_ok w p (MaxRetries c) (KeepLog c) new (<[n := ws']> wl).
Proof.
  intros Hok Hws Hlog k ws Hk. lookup_insert_cases Hk k n.
  - subst ws. by exists m'.
  - by apply Hok.
Qed.

(** Worker [n] moves on and logs an entry. *)
Lemma workers_ok_log new wl n ws' m' e :
  workers_ok w p (MaxRetries c) (KeepLog c) new wl ->
  e_Request e = Z.of_nat n ->
  worker_ok w p (MaxRetries c) n ws' m' ->
  (KeepLog c = true ->
   entries_of n (new ++ [e])
   = map (logged_entry w p (Z.of_nat n)) (seq 0 m')) ->
  workers_ok w p (MaxRetries c) (KeepLog c) (new ++ [e]) (<[n := ws']> wl).
Proof.
  intros Hok He Hws Hlog k ws Hk. lookup_insert_cases Hk k n.
  - subst ws. by exists m'.
  - destruct (Hok k ws Hk) as (m & Hm & Hl). exists m. split; [done|].
    intros Hkeep. rewrite (entries_of_snoc_other k n) by done. auto.
Qed.

Lemma verdict_at_locals n m resp err :
  (resp, err) = locals w p n m ->
  classify (route w p n (Z.of_nat m) resp err) = verdict_at w p n m.
Proof. intros Hl. unfold verdict_at. by rewrite <- Hl. Qed.

Lemma failed_before_S n m resp e :
  failed_before w p n m ->
  verdict_at w p n m = Failure resp e ->
  failed_before w p n (S m).
Proof.
  intros Hb Hv j Hj. destruct (decide (j = m)) as [->|Hne]; [eauto|].
  apply Hb. lia.
Qed.

Lemma locals_S_failure n m resp e :
  verdict_at w p n m = Failure resp e ->
  locals w p n (S m) = (resp, Some e).
Proof. intros Hv. simpl. fold (verdict_at w p n m). by rewrite Hv. Qed.

Lemma call_inv_start : call_inv w p c (pester c p).
Proof.
  split.
  - unfold pester. destruct (read_bodies p); apply same_config_refl.
  - exists []. split.
    { rewrite app_nil_r. unfold pester. by destruct (read_bodies p). }
    split; [done|].
    intros k ws Hk. unfold pester in Hk.
    destruct (read_bodies p); simpl in Hk; [done|].
    apply lookup_replicate in Hk as [-> _].
    exists 0%nat. split; [|done]. split; [intros j Hj; lia|].
    simpl. auto.
Qed.

Lemma call_inv_work n st st' :
  call_inv w p c st -> work w p n st = Some st' -> call_inv w p c st'.
Proof.
  intros [Hcfg (new & Hlog & Hnokeep & Hok)]. unfold work.
  destruct (crashed st) eqn:Hcr; [done|].
  destruct Hcfg as (HN & Hkeep & Hcfg').
  destruct (workers st !! n) as [ws|] eqn:Hn; [|done].
  destruct (Hok n ws Hn) as (m & [Hfail Hws] & Hent).
  destruct ws as [i resp err|i resp err|res| | |]; try done.
  - (* at the top of the loop *)
    destruct Hws as (-> & Hloc & Hbound). rewrite HN.
    destruct (Z.ltb_spec (Z.of_nat m) (MaxRetries c)) as [Hlt|Hge].
    + destruct (finished st); intros [= <-]; (split; [done|]); simpl;
        exists new; (split; [done|]); (split; [done|]);
        apply workers_ok_move with (m' := m); try done.
    + intros [= <-]. split; [done|]. simpl.
      exists new. split; [done|]. split; [done|].
      apply workers_ok_move with (m' := m); try done.
      split; [done|]. right. unfold exhausted_result.
      rewrite <- Hloc. done.
  - (* the attempt *)
    destruct Hws as (-> & Hloc & Hlt).
    rewrite (verdict_at_locals _ _ _ _ Hloc).
    destruct (verdict_at w p (Z.of_nat n) m) as [r|resp' e|] eqn:Hv.
    + intros [= <-]. split; [done|]. simpl.
      exists new. split; [done|]. split; [done|].
      apply workers_ok_move with (m' := m); try done.
      split; [done|]. left. split; [done|]. by exists r.
    + pose proof (same_config_log (client st) (sink st)
                    (failure_entry w p (Z.of_nat n) (Z.of_nat m) e)
                    (conj HN (conj Hkeep Hcfg'))) as Hcfg2.
      pose proof (log_client (client st) (sink st)
                    (failure_entry w p (Z.of_nat n) (Z.of_nat m) e))
        as Hcl.
      destruct (log (client st) (sink st)
                    (failure_entry w p (Z.of_nat n) (Z.of_nat m) e))
        as [c' out'] eqn:Hl.
      simpl in Hcfg2, Hcl.
      set (next := match Backoff (client st) (Z.of_nat m) with
                   | Some d =>
                       if GoInt.add d (GoInt.mul 1 Microsecond) <=? 0
                       then Blocked
                       else AtLoop (Z.of_nat m + 1) resp' (Some e)
                   | None => Panicked
                   end).
      assert (worker_ok w p (MaxRetries c) n next (S m)) as Hws'.
      { split; [by eapply failed_before_S|]. unfold next.
        destruct (Backoff (client st) (Z.of_nat m)) as [d|]; [|done].
        destruct (GoInt.add d (GoInt.mul 1 Microsecond) <=? 0); [done|].
        split; [lia|]. split; [by rewrite (locals_S_failure _ _ _ _ Hv)|].
        right. lia. }
      assert (logged_entry w p (Z.of_nat n) m
              = failure_entry w p (Z.of_nat n) (Z.of_nat m) e) as Hle.
      { unfold logged_entry, failure_error. by rewrite Hv. }
      assert (ErrLog c'
              = if KeepLog c
                then ErrLog (client st)
                     ++ [failure_entry w p (Z.of_nat n) (Z.of_nat m) e]
                else ErrLog (client st)) as HErr.
      { rewrite Hcl, Hkeep. by destruct (KeepLog c). }
      assert (exists new',
                ErrLog c' = ErrLog c ++ new' /\
                (KeepLog c = false -> new' = []) /\
                workers_ok w p (MaxRetries c) (KeepLog c) new'
                           (<[n := next]> (workers st))) as Hgoal.
      { assert (KeepLog c = true \/ KeepLog c = false) as [Hk|Hk]
          by (destruct (KeepLog c); auto); rewrite Hk in HErr.
        * exists (new ++ [failure_entry w p (Z.of_nat n) (Z.of_nat m) e]).
          split; [by rewrite HErr, Hlog, (assoc_L (++))|].
          split; [by rewrite Hk|].
          apply workers_ok_log with (m' := S m); try done.
          intros _. rewrite entries_of_snoc_same by done.
          rewrite Hent by done. rewrite seq_S, map_app. simpl.
          by rewrite Hle.
        * exists new. split; [by rewrite HErr|]. split; [done|].
          apply workers_ok_move with (m' := S m); try done.
          by rewrite Hk. }
      unfold next in Hgoal.
      destruct (Backoff (client st) (Z.of_nat m)) as [d|];
        intros [= <-]; (split; [done|]); exact Hgoal.
    + intros [= <-]. split; [done|]. simpl.
      exists new. split; [done|]. split; [done|].
      by apply workers_ok_move with (m' := m).
Qed.

Lemma call_inv_recv n st st' :
  call_inv w p c st -> recv n st = Some st' -> call_inv w p c st'.
Proof.
  intros [Hcfg (new & Hlog & Hnokeep & Hok)]. unfold recv.
  destruct (crashed st) eqn:Hcr; [done|].
  destruct (returned st); [done|].
  destruct (workers st !! n) as [[| |res| | |]|] eqn:Hn; try done.
  intros [= <-]. split; [by apply same_config_set_Success|].
  simpl. exists new. split; [done|]. split; [done|].
  destruct (Hok n _ Hn) as (m & [Hfail _] & Hent).
  by apply workers_ok_move with (m' := m).
Qed.

Lemma call_inv_step a st st' :
  call_inv w p c st -> step w p a st = Some st' -> call_inv w p c st'.
Proof.
  destruct a as [n|n]; simpl; [apply call_inv_work|apply call_inv_recv].
Qed.

Lemma call_inv_reachable sched st :
  exec w p sched (pester c p) = Some st -> call_inv w p c st.
Proof.
  apply (exec_invariant w p (call_inv w p c)).
  - intros a st1 st2. apply call_inv_step.
  - apply call_inv_start.
Qed.

End CallInvariant.

(** ** Calls through the five methods *)

Section KnownMethod.

Variable w : World.
Variable p : params.
Hypothesis Hknown : known_method (p_method p) = true.

Lemma verdict_at_known n m :
  verdict_at w p n m = attempt_verdict w p n (Z.of_nat m).
Proof.
  unfold verdict_at, attempt_verdict. by rewrite route_known.
Qed.

Lemma failure_error_known n m :
  failure_error w p n m = default "" (attempt_error w p n (Z.of_nat m)).
Proof.
  unfold failure_error, attempt_error. rewrite verdict_at_known.
  by destruct (attempt_verdict w p n (Z.of_nat m)).
Qed.

Lemma logged_entry_known n m :
  logged_entry w p n m = attempt_entry w p n m.
Proof.
  unfold logged_entry, attempt_entry. by rewrite failure_error_known.
Qed.

Lemma failed_before_known n m :
  failed_before w p n m ->
  forall j, (j < m)%nat -> is_Some (attempt_error w p n (Z.of_nat j)).
Proof.
  intros Hf j Hj. destruct (Hf j Hj) as (resp & e & Hv).
  rewrite verdict_at_known in Hv. unfold attempt_error. by rewrite Hv.
Qed.

Lemma locals_known_S n m :
  is_Some (attempt_error w p n (Z.of_nat m)) ->
  locals w p n (S m)
  = (attempt_response w p n (Z.of_nat m), attempt_error w p n (Z.of_nat m)).
Proof.
  intros [e He]. simpl. fold (verdict_at w p n m).
  rewrite verdict_at_known. unfold attempt_response, attempt_error in *.
  by destruct (attempt_verdict w p n (Z.of_nat m)).
Qed.

(** What a worker that sends has done, and what it sends. *)
Lemma sending_worker c sched st k res :
  exec w p sched (pester c p) = Some st ->
  workers st !! k = Some (Sending res) ->
  exists (m : nat) new,
    ErrLog (client st) = ErrLog c ++ new /\
    (KeepLog c = true ->
     entries_of k new = map (attempt_entry w p (Z.of_nat k)) (seq 0 m)) /\
    (forall j, (j < m)%nat ->
       is_Some (attempt_error w p (Z.of_nat k) (Z.of_nat j))) /\
    ((Z.of_nat m < MaxRetries c /\
      exists r, attempt_verdict w p (Z.of_nat k) (Z.of_nat m) = Success r /\
                res = success_result (Z.of_nat k) m r) \/
     (Z.of_nat m = Z.max 0 (MaxRetries c) /\
      res_req res = 0 /\ res_retry res = 0 /\
      (m = 0%nat ->
       res_resp res = Some empty_Response /\ res_err res = None) /\
      (forall m', m = S m' ->
         res_resp res = attempt_response w p (Z.of_nat k) (Z.of_nat m') /\
         res_err res = attempt_error w p (Z.of_nat k) (Z.of_nat m')))).
Proof.
  intros Hex Hk.
  destruct (call_inv_reachable w p c sched st Hex)
    as [_ (new & Hlog & _ & Hok)].
  destruct (Hok k _ Hk) as (m & [Hfail Hws] & Hent).
  exists m, new. split; [done|]. split.
  { intros Hkeep. rewrite (Hent Hkeep). apply map_ext.
    intros j. apply logged_entry_known. }
  pose proof (failed_before_known _ _ Hfail) as Hfail'.
  split; [done|].
  destruct Hws as [(Hlt & r & Hv & ->)|(Hge & Hbound & ->)].
  - left. split; [done|]. exists r. by rewrite <- verdict_at_known.
  - right. split; [lia|]. split; [done|]. split; [done|]. split.
    + by intros ->.
    + intros m' ->. unfold exhausted_result. cbn [res_resp res_err].
      rewrite locals_known_S by (apply Hfail'; lia). done.
Qed.

End KnownMethod.

(** ** The outcome that the orchestrator receives *)

Lemma recv_Some n st st' :
  recv n st = Some st' ->
  exists res,
    workers st !! n = Some (Sending res) /\
    returned st = None /\ crashed st = false /\
    returned st' = Some (res_resp res, res_err res) /\
    client st' = set_Success (client st) (res_req res) (res_retry res) /\
    finished st' = true.
Proof.
  unfold recv. destruct (crashed st); [done|].
  destruct (returned st); [done|].
  destruct (workers st !! n) as [[| |res| | |]|]; try done.
  intros [= <-]. by exists res.
Qed.

(** C3 (as amended).  The orchestrator returns the response and the error
    of the outcome that it receives, and leaves the numbers of that outcome
    in [SuccessReqNum] and [SuccessRetryNum].  The outcome of a worker
    whose attempt succeeded has the index of the worker and the index of
    the retry.  The outcome of a worker that used up its retries has the
    response and the error of its last attempt, and 0 for both numbers. *)
Theorem received_outcome_numbers
        (w : World) (c : Client) (p : params)
        (sched : list action) (st st' : state) (k : nat) :
  known_method (p_method p) = true ->
  exec w p sched (pester c p) = Some st ->
  step w p (Recv k) st = Some st' ->
  exists (res : result) (m : nat),
    workers st !! k = Some (Sending res) /\
    returned st' = Some (res_resp res, res_err res) /\
    SuccessReqNum (client st') = res_req res /\
    SuccessRetryNum (client st') = res_retry res /\
    (forall j, (j < m)%nat ->
       is_Some (attempt_error w p (Z.of_nat k) (Z.of_nat j))) /\
    ((Z.of_nat m < MaxRetries c /\
      exists r, attempt_verdict w p (Z.of_nat k) (Z.of_nat m) = Success r /\
                res = {| res_resp := Some r; res_err := None;
                         res_req := Z.of_nat k; res_retry := Z.of_nat m |}) \/
     (Z.of_nat m = Z.max 0 (MaxRetries c) /\
      res_req res = 0 /\ res_retry res = 0 /\
      (m = 0%nat ->
       res_resp res = Some empty_Response /\ res_err res = None) /\
      (forall m', m = S m' ->
         res_resp res = attempt_response w p (Z.of_nat k) (Z.of_nat m') /\
         res_err res = attempt_error w p (Z.of_nat k) (Z.of_nat m') /\
         is_Some (res_err res)))).
Proof.
  intros Hknown Hex Hrecv. simpl in Hrecv.
  destruct (recv_Some k st st' Hrecv)
    as (res & Hk & _ & _ & Hret & Hcl & _).
  destruct (sending_worker w p Hknown c sched st k res Hex Hk)
    as (m & new & _ & _ & Hfail & Hcase).
  exists res, m. split; [done|]. split; [done|].
  rewrite Hcl. split; [done|]. split; [done|]. split; [done|].
  destruct Hcase as [Hs|(Hm & Hreq & Hretry & H0 & HS)]; [by left|].
  right. split; [done|]. split; [done|]. split; [done|]. split; [done|].
  intros m' ->. destruct (HS m' eq_refl) as [Hr He].
  split; [done|]. split; [done|]. rewrite He. apply Hfail. lia.
Qed.

Lemma received_outcome_numbers_witness :
  exists st st',
    exec always_refused (Get_params "http://h/")
         [Work 1; Work 1; Work 1] (pester two_at_once (Get_params "http://h/"))
    = Some st /\
    step always_refused (Get_params "http://h/") (Recv 1) st = Some st' /\
    returned st' = Some (None, Some "connection refused") /\
    SuccessReqNum (client st') = 0 /\ SuccessRetryNum (client st') = 0.
Proof.
  eexists. eexists. split; [reflexivity|]. split; [reflexivity|].
  destruct (received_outcome_numbers always_refused two_at_once
              (Get_params "http://h/") [Work 1; Work 1; Work 1]
              _ _ 1%nat eq_refl eq_refl eq_refl)
    as (res & m & Hk & Hret & Hreq & Hretry & _).
  injection Hk as <-. split; [exact Hret|]. split; [exact Hreq|exact Hretry].
Defined.

(** Worker 1 of two runs out of retries and is the one that the
    orchestrator hears: [SuccessReqNum] is 0, not 1. *)
Lemma exhausted_outcome_not_tagged :
  ~ records_winner always_refused two_at_once (Get_params "http://h/").
Proof.
  intros Hrec.
  specialize (Hrec [Work 1; Work 1; Work 1] _ 1%nat _ eq_refl eq_refl).
  vm_compute in Hrec. discriminate.
Qed.

(** ** Clients made by [New] *)

Lemma no_keep_no_entry w c p sched st :
  KeepLog c = false ->
  exec w p sched (pester c p) = Some st ->
  KeepLog (client st) = false /\ ErrLog (client st) = ErrLog c.
Proof.
  intros Hk Hex.
  destruct (call_inv_reachable w p c sched st Hex)
    as [(_ & Hkeep & _) (new & Hlog & Hnone & _)].
  split; [congruence|]. by rewrite Hlog, (Hnone Hk), app_nil_r.
Qed.

Lemma LogString_ErrLog c c' : ErrLog c = ErrLog c' -> LogString c = LogString c'.
Proof. intros Hl. unfold LogString. by rewrite Hl. Qed.

(** C10 (as amended).  A client made by [New] does not keep a log: however
    a call on it goes, and so however a call through [Do], [Get], [Head],
    [Post] or [PostForm] of the package goes, [KeepLog] is false and no
    entry is appended, so that [ErrLog] stays the log that [New] copied
    from [DefaultClient] and [LogString] stays the rendering of that log:
    the empty string when the log of [DefaultClient] is empty, as it is
    declared. *)
Theorem New_keeps_no_log (w : World) (d : Client) :
  KeepLog (New d) = false /\ ErrLog (New d) = ErrLog d /\
  LogString (New DefaultClient) = "" /\
  (forall p sched st,
     exec w p sched (pester (New d) p) = Some st ->
     KeepLog (client st) = false /\ ErrLog (client st) = ErrLog d /\
     LogString (client st) = LogString (New d) /\
     (ErrLog d = [] -> ErrLog (client st) = [] /\ LogString (client st) = ""))
  /\
  (forall rq sched st,
     exec w (Do_params rq) sched (Do d rq) = Some st ->
     ErrLog (client st) = ErrLog d /\
     (ErrLog d = [] -> LogString (client st) = "")) /\
  (forall url sched st,
     exec w (Get_params url) sched (Get d url) = Some st ->
     ErrLog (client st) = ErrLog d /\
     (ErrLog d = [] -> LogString (client st) = "")) /\
  (forall url sched st,
     exec w (Head_params url) sched (Head d url) = Some st ->
     ErrLog (client st) = ErrLog d /\
     (ErrLog d = [] -> LogString (client st) = "")) /\
  (forall url bt body sched st,
     exec w (Post_params url bt body) sched (Post d url bt body) = Some st ->
     ErrLog (client st) = ErrLog d /\
     (ErrLog d = [] -> LogString (client st) = "")) /\
  (forall url data sched st,
     exec w (PostForm_params url data) sched (PostForm d url data)
     = Some st ->
     ErrLog (client st) = ErrLog d /\
     (ErrLog d = [] -> LogString (client st) = "")).
Proof.
  assert (forall p sched st,
            exec w p sched (pester (New d) p) = Some st ->
            KeepLog (client st) = false /\ ErrLog (client st) = ErrLog d /\
            LogString (client st) = LogString (New d) /\
            (ErrLog d = [] ->
             ErrLog (client st) = [] /\ LogString (client st) = ""))
    as Hall.
  { intros p sched st Hex.
    destruct (no_keep_no_entry w (New d) p sched st eq_refl Hex) as [Hk Hl].
    simpl in Hl.
    split; [done|]. split; [done|].
    split; [by apply LogString_ErrLog|].
    intros Hnil. rewrite Hnil in Hl. split; [done|].
    unfold LogString. by rewrite Hl. }
  split; [done|]. split; [done|]. split; [done|]. split; [exact Hall|].
  repeat split; intros; try (by eapply Hall);
    match goal with
    | Hex : exec _ _ _ _ = Some _ |- _ =>
        destruct (Hall _ _ _ Hex) as (_ & _ & _ & Hnil)
    end; by apply Hnil.
Qed.

Lemma New_keeps_no_log_witness :
  exists st,
    exec always_500 (Get_params "http://h/")
         [Work 0; Work 0; Work 0; Work 0]
         (Get DefaultClient "http://h/") = Some st /\
    ErrLog (client st) = [] /\ LogString (client st) = "".
Proof.
  destruct (exec always_500 (Get_params "http://h/")
              [Work 0; Work 0; Work 0; Work 0]
              (Get DefaultClient "http://h/")) as [st|] eqn:Hex;
    [|by vm_compute in Hex].
  exists st. split; [done|].
  destruct (New_keeps_no_log always_500 DefaultClient)
    as (_ & _ & _ & _ & _ & Hget & _).
  destruct (Hget "http://h/" [Work 0; Work 0; Work 0; Work 0] st Hex)
    as [Hlog Hstr].
  split; [exact Hlog|]. by apply Hstr.
Defined.

(** [New] copies the log that [DefaultClient] has when it is called: after
    [DefaultClient] has logged a failure, a new client does not keep a
    log, but its [LogString] is not empty. *)
Lemma New_copies_used_log :
  KeepLog (New used_DefaultClient) = false /\
  LogString (New used_DefaultClient)
  = "1700000000 Get [GET] to http://h/ request-0 retry-0 error: connection refused
" /\
  ~ new_client_log_empty used_DefaultClient.
Proof.
  split; [reflexivity|]. split; [by vm_compute|].
  unfold new_client_log_empty. by vm_compute.
Qed.

(** ** A client that allows no retry *)

Lemma step_workers_length w p a st st' :
  step w p a st = Some st' -> length (workers st') = length (workers st).
Proof.
  destruct a as [n|n]; simpl.
  - unfold work. destruct (crashed st); [done|].
    destruct (workers st !! n) as [[i resp err|i resp err|res| | |]|];
      try done.
    + destruct (i <? MaxRetries (client st)); [destruct (finished st)|];
        intros [= <-]; simpl; apply length_insert.
    + destruct (classify (route w p (Z.of_nat n) i resp err)) as [r|r e|].
      * intros [= <-]. simpl. apply length_insert.
      * destruct (log (client st) (sink st)
                      (failure_entry w p (Z.of_nat n) i e)) as [c' out'].
        destruct (Backoff (client st) i);
          intros [= <-]; simpl; apply length_insert.
      * intros [= <-]. simpl. apply length_insert.
  - intros Hr. destruct (recv_Some n st st' Hr) as (res & Hk & _).
    unfold recv in Hr. rewrite Hk in Hr.
    destruct (crashed st); [done|]. destruct (returned st); [done|].
    injection Hr as <-. simpl. apply length_insert.
Qed.

Lemma exec_workers_length w p sched st st' :
  exec w p sched st = Some st' -> length (workers st') = length (workers st).
Proof.
  revert st. induction sched as [|a sched IH]; intros st; simpl.
  - by intros [= <-].
  - destruct (step w p a st) as [st1|] eqn:Ha; simpl; [|done].
    intros Hex. rewrite (IH _ Hex). by eapply step_workers_length.
Qed.

Lemma sum_list_insert (f : wstate -> nat) l k old x :
  l !! k = Some old ->
  (sum_list (map f (<[k := x]> l)) + f old = sum_list (map f l) + f x)%nat.
Proof.
  revert k. induction l as [|y l IH]; intros [|k] Hk; simpl in *; try done.
  - injection Hk as ->. lia.
  - specialize (IH k Hk). lia.
Qed.

Section NoRetry.

Variable w : World.
Variable p : params.
Variable c : Client.
Hypothesis Hnone : MaxRetries c <= 0.

Lemma idle_inv_start bs :
  read_bodies p = inr bs -> idle_inv c (pester c p).
Proof.
  intros Hb. unfold pester. rewrite Hb.
  do 5 (split; [done|]). simpl. split; [|split].
  - intros k ws Hk. apply lookup_replicate in Hk as [-> _]. by left.
  - intros _ k Hk. by apply lookup_replicate in Hk as [[=] _].
  - by intros r [=].
Qed.

Lemma idle_inv_step a st st' :
  idle_inv c st -> step w p a st = Some st' ->
  idle_inv c st' /\ total_steps_left st = S (total_steps_left st').
Proof.
  intros (HN & Hlog & Hatt & Hsink & Hcr & Hws & Hdone & Hret).
  destruct a as [n|n]; simpl.
  - unfold work. rewrite Hcr.
    destruct (workers st !! n) as [ws|] eqn:Hn; [|done].
    destruct (Hws n ws Hn) as [->|[->| ->]]; [|done..].
    rewrite HN. destruct (Z.ltb_spec 0 (MaxRetries c)) as [?|_]; [lia|].
    intros [= <-]. split.
    + do 5 (split; [done|]). simpl. split; [|split; [|done]].
      * intros k ws Hk. lookup_insert_cases Hk k n.
        -- subst ws. right. by left.
        -- by eapply Hws.
      * intros Hr k Hk. lookup_insert_cases Hk k n; [done|by eapply Hdone].
    + unfold total_steps_left. simpl.
      pose proof (sum_list_insert steps_left (workers st) n _
                    (Sending idle_result) Hn) as Hsum.
      unfold idle_result in Hsum. simpl in Hsum. lia.
  - intros Hr. destruct (recv_Some n st st' Hr)
      as (res & Hk & Hnret & _ & Hret' & Hcl & _).
    destruct (Hws n _ Hk) as [[=]|[[= ->]|[=]]].
    unfold recv in Hr. rewrite Hcr, Hnret, Hk in Hr. injection Hr as <-.
    split.
    + do 5 (split; [done|]). simpl. split; [|split; [done|]].
      * intros k ws Hk'. lookup_insert_cases Hk' k n.
        -- subst ws. right. by right.
        -- by eapply Hws.
      * by intros r [= <-].
    + unfold total_steps_left. simpl.
      pose proof (sum_list_insert steps_left (workers st) n _ Done Hk)
        as Hsum.
      simpl in Hsum. lia.
Qed.

Lemma idle_inv_exec sched st st' :
  idle_inv c st -> exec w p sched st = Some st' ->
  idle_inv c st' /\
  total_steps_left st = (length sched + total_steps_left st')%nat.
Proof.
  revert st. induction sched as [|a sched IH]; intros st Hinv; simpl.
  - by intros [= <-].
  - destruct (step w p a st) as [st1|] eqn:Ha; simpl; [|done].
    intros Hex. destruct (idle_inv_step a st st1 Hinv Ha) as [Hinv1 Hm].
    destruct (IH st1 Hinv1 Hex) as [Hinv' Hm']. split; [done|]. lia.
Qed.

Lemma idle_inv_progress st :
  idle_inv c st -> returned st = None -> (0 < length (workers st))%nat ->
  exists a st', step w p a st = Some st'.
Proof.
  intros (HN & Hlog & Hatt & Hsink & Hcr & Hws & Hdone & Hret) Hr Hlen.
  destruct (workers st !! 0%nat) as [ws|] eqn:H0.
  - destruct (Hws _ _ H0) as [->|[->| ->]].
    + exists (Work 0). simpl. unfold work. rewrite Hcr, H0.
      destruct (0 <? MaxRetries (client st));
        [destruct (finished st)|]; eauto.
    + exists (Recv 0). simpl. unfold recv. rewrite Hcr, Hr, H0. eauto.
    + by destruct (Hdone Hr 0%nat).
  - apply lookup_ge_None in H0. lia.
Qed.

Lemma total_steps_left_start bs :
  read_bodies p = inr bs ->
  total_steps_left (pester c p) = (2 * Z.to_nat (concurrency c p))%nat.
Proof.
  intros Hb. unfold total_steps_left. rewrite (pester_workers c p bs Hb).
  induction (Z.to_nat (concurrency c p)) as [|n IH]; simpl; [done|].
  simpl in IH. rewrite IH. lia.
Qed.

End NoRetry.

Lemma read_bodies_inl p e :
  read_bodies p = inl e ->
  e = errors_New "error reading request body" \/
  e = errors_New "error reading body".
Proof.
  unfold read_bodies.
  destruct (p_req p) as [rq|]; [destruct (Body rq) as [b|]|];
    [destruct (ReadAll b) as [bs [e1|]]; [intros [= <-]; by left|]|..];
    (destruct (p_body p) as [b'|]; [|done]);
    (destruct (ReadAll b') as [bs' [e2|]]; [|done]);
    intros [= <-]; by right.
Qed.

Lemma no_retry_first_worker_returns w c p bs :
  MaxRetries c <= 0 -> 1 <= concurrency c p -> read_bodies p = inr bs ->
  exists st, exec w p [Work 0; Recv 0] (pester c p) = Some st /\
             returned st = Some (Some empty_Response, None).
Proof.
  intros Hnone Hconc Hb.
  assert (workers (pester c p) !! 0%nat
          = Some (AtLoop 0 (Some empty_Response) None)) as H0.
  { rewrite (pester_workers c p bs Hb). apply lookup_replicate_2. lia. }
  assert (MaxRetries (client (pester c p)) = MaxRetries c) as HN.
  { unfold pester. by rewrite Hb. }
  assert (crashed (pester c p) = false /\ returned (pester c p) = None)
    as [Hcr Hret].
  { unfold pester. by rewrite Hb. }
  simpl. unfold work. rewrite Hcr, H0, HN.
  destruct (Z.ltb_spec 0 (MaxRetries c)) as [?|_]; [lia|]. simpl.
  unfold recv. simpl. rewrite Hcr, Hret.
  rewrite list_lookup_insert_eq by (by eapply lookup_lt_Some).
  eexists. split; [reflexivity|]. done.
Qed.

(** C5 (as amended).  With [MaxRetries] at 0 or below and an effective
    concurrency of 1 or more (every call but a GET, and a GET of a client
    whose [Concurrency] is 1 or more), a call makes no attempt and logs
    nothing; it cannot go on for more than two steps for each worker, as
    long as it has not returned some step can be taken, and what it returns
    is an empty response, with a nil error or with the error of a body that
    could not be read. *)
Theorem no_retry_call_returns (w : World) (c : Client) (p : params) :
  MaxRetries c <= 0 ->
  1 <= concurrency c p ->
  (forall sched st,
     exec w p sched (pester c p) = Some st ->
     attempts st = [] /\ ErrLog (client st) = ErrLog c /\
     (length sched <= 2 * Z.to_nat (concurrency c p))%nat /\
     (returned st = None -> exists a st', step w p a st = Some st') /\
     ((forall a, step w p a st = None) -> is_Some (returned st)) /\
     (forall resp err,
        returned st = Some (resp, err) ->
        resp = Some empty_Response /\
        (err = None \/
         err = Some (errors_New "error reading request body") \/
         err = Some (errors_New "error reading body")))) /\
  can_return w c p.
Proof.
  intros Hnone Hconc.
  destruct (read_bodies p) as [e|bs] eqn:Hb.
  - (* the body cannot be read *)
    assert (pester c p
            = {| client := c; workers := []; finished := false;
                 returned := Some (Some empty_Response, Some e);
                 attempts := []; sink := []; crashed := false |}) as Hp.
    { unfold pester. by rewrite Hb. }
    split.
    + intros [|a sched] st; simpl.
      * intros [= <-]. rewrite Hp. simpl.
        split; [done|]. split; [done|]. split; [lia|]. split; [done|].
        split; [by eexists|].
        intros resp err [= <- <-]. split; [done|]. right.
        destruct (read_bodies_inl p e Hb) as [-> | ->]; auto.
      * rewrite step_no_workers; [done|]. by rewrite Hp.
    + exists [], (pester c p). split; [done|]. rewrite Hp. by eexists.
  - (* the workers start *)
    split.
    + intros sched st Hex.
      destruct (idle_inv_exec w p c Hnone sched _ st
                  (idle_inv_start p c bs Hb) Hex) as [Hinv Hm].
      rewrite (total_steps_left_start p c bs Hb) in Hm.
      pose proof Hinv as (HN & Hlog & Hatt & Hsink & Hcr & Hws & Hd & Hret).
      assert (returned st = None -> exists a st', step w p a st = Some st')
        as Hprog.
      { intros Hr. apply (idle_inv_progress w p c st Hinv Hr).
        rewrite (exec_workers_length w p sched _ st Hex).
        rewrite (pester_workers c p bs Hb), length_replicate. lia. }
      split; [done|]. split; [done|]. split; [lia|]. split; [done|]. split.
      * intros Hstuck. destruct (returned st) as [r|] eqn:Hr; [by eexists|].
        destruct (Hprog eq_refl) as (a & st1 & Ha). by rewrite Hstuck in Ha.
      * intros resp err Hr. specialize (Hret _ Hr) as [= -> ->]. auto.
    + destruct (no_retry_first_worker_returns w c p bs Hnone Hconc Hb)
        as (st & Hex & Hret).
      exists [Work 0; Recv 0], st. split; [done|]. rewrite Hret. by eexists.
Qed.

Lemma no_retry_call_returns_witness :
  exists st,
    exec always_500 (Do_params (mkRequest "POST" "http://h/" None))
         [Work 0; Recv 0]
         (Client_Do no_retry (mkRequest "POST" "http://h/" None)) = Some st /\
    returned st = Some (Some empty_Response, None) /\
    attempts st = [] /\ ErrLog (client st) = [].
Proof.
  eexists. split; [reflexivity|]. split; [reflexivity|].
  destruct (no_retry_call_returns always_500 no_retry
              (Do_params (mkRequest "POST" "http://h/" None))
              ltac:(simpl; lia) ltac:(vm_compute; discriminate))
    as [Hall _].
  destruct (Hall [Work 0; Recv 0] _ eq_refl) as (Hatt & Hlog & _).
  split; [exact Hatt|exact Hlog].
Defined.

(** A GET of the zero client, whose [MaxRetries] and [Concurrency] are both
    0: no worker starts, nothing is ever sent on the channel that the
    orchestrator waits on, and the call does not return. *)
Lemma zero_Client_Get_never_returns :
  MaxRetries zero_Client <= 0 /\
  ~ can_return always_500 zero_Client (Get_params "http://h/").
Proof.
  split; [simpl; lia|].
  intros ([|a sched] & st & Hex & Hret).
  - injection Hex as <-. by destruct Hret.
  - simpl in Hex. rewrite step_no_workers in Hex; done.
Qed.

(** ** A worker whose attempts all fail *)

Section AllFail.

Variable w : World.
Variable p : params.
Variable c : Client.
Variable k : nat.
Hypothesis Hknown : known_method (p_method p) = true.
Hypothesis Hfail :
  forall i, 0 <= i < MaxRetries c ->
            is_Some (attempt_error w p (Z.of_nat k) i).

Lemma attempt_error_verdict n i e :
  attempt_error w p n i = Some e ->
  attempt_verdict w p n i = Failure (attempt_response w p n i) e.
Proof.
  unfold attempt_error, attempt_response.
  destruct (attempt_verdict w p n i); [done| |done]. by intros [= ->].
Qed.

Lemma exec_cons_Some a sched st st1 :
  step w p a st = Some st1 ->
  exec w p (a :: sched) st = exec w p sched st1.
Proof. intros Ha. simpl. by rewrite Ha. Qed.

(** A failed attempt after which the worker comes back to the top of its
    loop. *)
Lemma failed_attempt_step st i resp err e d :
  crashed st = false ->
  workers st !! k = Some (Attempting i resp err) ->
  attempt_error w p (Z.of_nat k) i = Some e ->
  Backoff (client st) i = Some d ->
  0 < GoInt.add d (GoInt.mul 1 Microsecond) ->
  exists st',
    work w p k st = Some st' /\
    crashed st' = false /\ finished st' = finished st /\
    returned st' = returned st /\
    MaxRetries (client st') = MaxRetries (client st) /\
    Backoff (client st') = Backoff (client st) /\
    workers st' !! k
    = Some (AtLoop (i + 1) (attempt_response w p (Z.of_nat k) i) (Some e)).
Proof.
  intros Hcr Hk He Hd Hpos.
  pose proof (lookup_lt_Some _ _ _ Hk) as Hlt.
  unfold work. rewrite Hcr, Hk, (route_known w p _ _ _ _ Hknown).
  fold (attempt_verdict w p (Z.of_nat k) i).
  rewrite (attempt_error_verdict _ _ _ He).
  pose proof (log_client (client st) (sink st)
                (failure_entry w p (Z.of_nat k) i e)) as Hc.
  destruct (log (client st) (sink st) (failure_entry w p (Z.of_nat k) i e))
    as [c' out'].
  simpl in Hc. rewrite Hd.
  destruct (Z.leb_spec (GoInt.add d (GoInt.mul 1 Microsecond)) 0)
    as [?|_]; [lia|].
  eexists. split; [reflexivity|]. simpl.
  rewrite list_lookup_insert_eq by done. subst c'.
  by destruct (KeepLog (client st)).
Qed.

(** Left to itself, the worker goes through its retries and comes to send
    its result. *)
Lemma lone_worker_run (j m : nat) st resp err :
  backoff_waits c (MaxRetries c) ->
  Z.of_nat m + Z.of_nat j = MaxRetries c ->
  crashed st = false -> finished st = false ->
  MaxRetries (client st) = MaxRetries c ->
  Backoff (client st) = Backoff c ->
  workers st !! k = Some (AtLoop (Z.of_nat m) resp err) ->
  exists st' res,
    exec w p (replicate (2 * j + 1) (Work k)) st = Some st' /\
    workers st' !! k = Some (Sending res) /\
    returned st' = returned st /\ crashed st' = false.
Proof.
  intros Hwait. revert m st resp err.
  induction j as [|j IH]; intros m st resp err Hm Hcr Hfin HN HB Hk.
  - simpl. unfold work. rewrite Hcr, Hk, HN.
    destruct (Z.ltb_spec (Z.of_nat m) (MaxRetries c)) as [?|_]; [lia|].
    simpl. eexists _, _. split; [reflexivity|]. simpl.
    rewrite list_lookup_insert_eq by (by eapply lookup_lt_Some). done.
  - replace (2 * S j + 1)%nat with (S (S (2 * j + 1))) by lia.
    cbn [replicate].
    pose proof (lookup_lt_Some _ _ _ Hk) as Hlt.
    (* the test of the loop and the check of [finishCh] *)
    assert (step w p (Work k) st
            = Some (set_worker st k (Attempting (Z.of_nat m) resp err)))
      as H1.
    { simpl. unfold work. rewrite Hcr, Hk, HN, Hfin.
      by destruct (Z.ltb_spec (Z.of_nat m) (MaxRetries c)) as [_|?];
        [|lia]. }
    rewrite (exec_cons_Some _ _ _ _ H1).
    (* the attempt, which fails *)
    destruct (Hfail (Z.of_nat m) ltac:(lia)) as [e He].
    destruct (Hwait (Z.of_nat m) ltac:(lia)) as (d & Hd & Hpos).
    destruct (failed_attempt_step
                (set_worker st k (Attempting (Z.of_nat m) resp err))
                (Z.of_nat m) resp err e d)
      as (st2 & H2 & Hcr2 & Hfin2 & Hret2 & HN2 & HB2 & Hk2);
      try done.
    { simpl. by rewrite list_lookup_insert_eq. }
    { simpl. by rewrite HB. }
    rewrite (exec_cons_Some (Work k) _ _ st2 H2).
    simpl in Hfin2, Hret2, HN2, HB2.
    destruct (IH (S m) st2 (attempt_response w p (Z.of_nat k) (Z.of_nat m))
                 (Some e))
      as (st' & res & Hex & Hs & Hret & Hcr'); try congruence.
    { lia. }
    { by rewrite Nat2Z.inj_succ. }
    exists st', res. split; [done|]. split; [done|]. split; [congruence|done].
Qed.

End AllFail.

(** C4.  Let the log be kept, [MaxRetries] be [N >= 1], and every attempt
    of worker [k] fail.  When that worker sends its outcome, the log has got
    exactly [N] entries of its own since the call began, one for each retry
    in order, and the outcome carries the error of the [N]-th attempt; if
    the orchestrator receives this outcome, that is the error that the call
    returns.  The worker does come to send when its body can be read, it is
    one of the workers started, and the backoff durations can be waited
    for. *)
Theorem exhausted_worker_log (w : World) (c : Client) (p : params) (k : nat) :
  known_method (p_method p) = true ->
  KeepLog c = true ->
  1 <= MaxRetries c ->
  (forall i, 0 <= i < MaxRetries c ->
             is_Some (attempt_error w p (Z.of_nat k) i)) ->
  (forall sched st res,
     exec w p sched (pester c p) = Some st ->
     workers st !! k = Some (Sending res) ->
     (exists new,
        ErrLog (client st) = ErrLog c ++ new /\
        entries_of k new
        = map (attempt_entry w p (Z.of_nat k))
              (seq 0 (Z.to_nat (MaxRetries c))) /\
        length (entries_of k new) = Z.to_nat (MaxRetries c)) /\
     res_err res = attempt_error w p (Z.of_nat k) (MaxRetries c - 1) /\
     is_Some (res_err res) /\
     (forall st',
        step w p (Recv k) st = Some st' ->
        returned st'
        = Some (attempt_response w p (Z.of_nat k) (MaxRetries c - 1),
                attempt_error w p (Z.of_nat k) (MaxRetries c - 1)))) /\
  (forall bs,
     read_bodies p = inr bs ->
     (k < Z.to_nat (concurrency c p))%nat ->
     backoff_waits c (MaxRetries c) ->
     exists st res,
       exec w p (replicate (2 * Z.to_nat (MaxRetries c) + 1) (Work k))
            (pester c p) = Some st /\
       workers st !! k = Some (Sending res) /\ returned st = None).
Proof.
  intros Hknown Hkeep HN Hfail. split.
  - intros sched st res Hex Hk.
    destruct (sending_worker w p Hknown c sched st k res Hex Hk)
      as (m & new & Hlog & Hent & Hfailed & Hcase).
    destruct Hcase as [(Hlt & r & Hv & _)|(Hm & _ & _ & _ & HS)].
    { (* a success would contradict the failure of attempt [m] *)
      destruct (Hfail (Z.of_nat m) ltac:(lia)) as [e He].
      unfold attempt_error in He. by rewrite Hv in He. }
    assert (Z.to_nat (MaxRetries c) = m) as HmN by lia.
    destruct m as [|m']; [lia|].
    destruct (HS m' eq_refl) as [Hresp Herr].
    assert (Z.of_nat m' = MaxRetries c - 1) as Hlast by lia.
    rewrite Hlast in Hresp, Herr.
    split; [|split; [done|split]].
    + exists new. split; [done|]. rewrite HmN.
      split; [by apply Hent|].
      by rewrite (Hent Hkeep), length_map, length_seq.
    + rewrite Herr. apply Hfail. lia.
    + intros st' Hrecv. simpl in Hrecv.
      destruct (recv_Some k st st' Hrecv) as (res' & Hk' & _ & _ & Hret & _).
      rewrite Hk in Hk'. injection Hk' as <-.
      by rewrite Hret, Hresp, Herr.
  - intros bs Hb Hlt Hwait.
    destruct (lone_worker_run w p c k Hknown Hfail
                (Z.to_nat (MaxRetries c)) 0 (pester c p)
                (Some empty_Response) None Hwait)
      as (st & res & Hex & Hs & Hret & _).
    + lia.
    + unfold pester. by rewrite Hb.
    + unfold pester. by rewrite Hb.
    + unfold pester. by rewrite Hb.
    + unfold pester. by rewrite Hb.
    + rewrite (pester_workers c p bs Hb). by apply lookup_replicate_2.
    + exists st, res. split; [done|]. split; [done|].
      rewrite Hret. unfold pester. by rewrite Hb.
Qed.

Lemma exhausted_worker_log_witness :
  exists st st',
    exec always_500 (Get_params "http://h/")
         [Work 0; Work 0; Work 0; Work 0; Work 0]
         (Client_Get two_retries "http://h/") = Some st /\
    step always_500 (Get_params "http://h/") (Recv 0) st = Some st' /\
    ErrLog (client st)
    = [ {| e_Time := 1700000000; e_Method := "Get"; e_URL := "http://h/";
           e_Verb := "GET"; e_Request := 0; e_Retry := 0;
           e_Err := Some "500 Internal Server Error" |};
        {| e_Time := 1700000001; e_Method := "Get"; e_URL := "http://h/";
           e_Verb := "GET"; e_Request := 0; e_Retry := 1;
           e_Err := Some "500 Internal Server Error" |} ] /\
    returned st'
    = Some (Some (mkResponse "500 Internal Server Error" 500),
            Some "500 Internal Server Error").
Proof.
  eexists. eexists. split; [reflexivity|]. split; [reflexivity|].
  split; [reflexivity|].
  destruct (exhausted_worker_log always_500 two_retries
              (Get_params "http://h/") 0%nat eq_refl eq_refl
              ltac:(simpl; lia) ltac:(intros i Hi; by eexists))
    as [Hsafe _].
  destruct (Hsafe [Work 0; Work 0; Work 0; Work 0; Work 0] _ _
                  eq_refl eq_refl) as (_ & _ & _ & Hret).
  exact (Hret _ eq_refl).
Defined.

(** * Further properties *)

(** ** The stock strategies *)

(** X1.  The linear and the exponential strategy grow with the index, as
    long as the durations fit 64 bits: a later retry waits strictly longer,
    the next linear backoff is one second longer and the next exponential
    backoff is twice as long. *)
Theorem stock_backoffs_increase (i j : Z) :
  0 <= i < j ->
  (j <= 9223372036 ->
   exists a b, LinearBackoff i = Some a /\ LinearBackoff j = Some b /\
               a < b /\ (j = i + 1 -> b = a + Second)) /\
  (j <= 33 ->
   exists a b, ExponentialBackoff i = Some a /\
               ExponentialBackoff j = Some b /\
               a < b /\ (j = i + 1 -> b = 2 * a)).
Proof.
  intros Hij. split; intros Hj.
  - exists (i * Second), (j * Second).
    rewrite !LinearBackoff_exact by lia. rewrite Second_eq.
    split; [done|]. split; [done|]. split; [lia|]. intros ->. lia.
  - exists (2 ^ i * Second), (2 ^ j * Second).
    rewrite !ExponentialBackoff_exact by lia. rewrite Second_eq.
    split; [done|]. split; [done|].
    assert (0 < 2 ^ i) by (apply Z.pow_pos_nonneg; lia).
    assert (2 ^ i < 2 ^ j) by (apply Z.pow_lt_mono_r; lia).
    split; [lia|]. intros ->. rewrite Z.pow_add_r by lia. lia.
Qed.

Lemma stock_backoffs_increase_witness :
  0 <= 2 < 3 /\
  (exists a b, LinearBackoff 2 = Some a /\ LinearBackoff 3 = Some b /\
               a < b /\ (3 = 2 + 1 -> b = a + Second)) /\
  (exists a b, ExponentialBackoff 2 = Some a /\
               ExponentialBackoff 3 = Some b /\
               a < b /\ (3 = 2 + 1 -> b = 2 * a)).
Proof.
  split; [lia|].
  destruct (stock_backoffs_increase 2 3 ltac:(lia)) as [Hl He].
  split; [apply Hl|apply He]; lia.
Defined.



(** ** The wait between two attempts *)

Lemma tick_duration_small d :
  - 2 ^ 63 <= d <= 2 ^ 63 - 1001 -> tick_duration d = d + 1000.
Proof.
  intros Hd. unfold tick_duration.
  change (GoInt.mul 1 Microsecond) with 1000.
  apply GoIntFacts.add_small. unfold GoInt.min_int, GoInt.max_int. lia.
Qed.

Lemma nonnegative_backoff_waits c N :
  (forall i, 0 <= i < N ->
     exists d, Backoff c i = Some d /\ 0 <= d <= 2 ^ 63 - 1001) ->
  backoff_waits c N.
Proof.
  intros Hd i Hi. destruct (Hd i Hi) as (d & HB & Hr).
  exists d. split; [done|]. fold (tick_duration d).
  rewrite tick_duration_small by lia. lia.
Qed.



Section Stuck.

Variable w : World.
Variable p : params.
Variable c : Client.
Hypothesis Hknown : known_method (p_method p) = true.
Hypothesis Hretries : 1 <= MaxRetries c.
Hypothesis Hfails : is_Some (attempt_error w p 0 0).
Hypothesis Hblocks :
  Backoff c 0 = None \/
  exists d, Backoff c 0 = Some d /\ tick_duration d <= 0.

Lemma stuck_inv_step a st st' :
  stuck_inv c st -> step w p a st = Some st' -> stuck_inv c st'.
Proof.
  intros (Hret & Hfin & HN & HB & Hws).
  destruct a as [[|n]|n]; simpl.
  - unfold work. destruct (crashed st) eqn:Hcr; [done|].
    change (Z.of_nat 0) with 0.
    destruct Hws as [Hws|[Hws|[Hws|Hws]]].
    + assert (workers st !! 0%nat
              = Some (AtLoop 0 (Some empty_Response) None)) as ->
        by (by rewrite Hws).
      rewrite HN, Hfin.
      destruct (Z.ltb_spec 0 (MaxRetries c)) as [_|?]; [|lia].
      intros [= <-]. unfold stuck_inv. simpl. rewrite Hws. simpl.
      repeat split; auto.
    + assert (workers st !! 0%nat
              = Some (Attempting 0 (Some empty_Response) None)) as ->
        by (by rewrite Hws).
      rewrite (route_known w p _ _ _ _ Hknown).
      fold (attempt_verdict w p 0 0).
      destruct Hfails as [e He].
      assert (attempt_verdict w p 0 0
              = Failure (attempt_response w p 0 0) e) as ->.
      { unfold attempt_error, attempt_response in *.
        destruct (attempt_verdict w p 0 0); [done| |done].
        by injection He as ->. }
      pose proof (log_client (client st) (sink st) (failure_entry w p 0 0 e))
        as Hc.
      destruct (log (client st) (sink st) (failure_entry w p 0 0 e))
        as [c' out'].
      simpl in Hc.
      assert (MaxRetries c' = MaxRetries c /\ Backoff c' = Backoff c)
        as [HN' HB'].
      { subst c'. by destruct (KeepLog (client st)). }
      rewrite HB.
      destruct Hblocks as [-> | (d & -> & Hd)].
      * intros [= <-]. unfold stuck_inv. simpl. rewrite Hws. simpl.
        repeat split; auto.
      * unfold tick_duration in Hd.
        destruct (Z.leb_spec (GoInt.add d (GoInt.mul 1 Microsecond)) 0)
          as [_|?]; [|lia].
        intros [= <-]. unfold stuck_inv. simpl. rewrite Hws. simpl.
        repeat split; auto.
    + by rewrite Hws.
    + by rewrite Hws.
  - unfold work. destruct (crashed st); [done|].
    by destruct Hws as [Hws|[Hws|[Hws|Hws]]]; rewrite Hws.
  - intros Hr. destruct (recv_Some n st st' Hr) as (res & Hk & _).
    by destruct Hws as [Hws|[Hws|[Hws|Hws]]]; rewrite Hws in Hk;
      destruct n.
Qed.

Lemma stuck_inv_start bs :
  read_bodies p = inr bs -> concurrency c p = 1 -> stuck_inv c (pester c p).
Proof.
  intros Hb Hc. unfold stuck_inv, pester. rewrite Hb, Hc. simpl.
  repeat split; auto.
Qed.

End Stuck.

(** X4.  A backoff that cannot be waited for stops the worker for good:
    when the one worker of a call fails its first attempt and the strategy
    then panics or gives a duration of minus one microsecond or less, the
    worker neither retries nor sends, and the call never returns. *)
Theorem blocking_backoff_never_returns
        (w : World) (c : Client) (p : params)
        (bs : list Byte.byte * list Byte.byte) :
  known_method (p_method p) = true ->
  read_bodies p = inr bs ->
  concurrency c p = 1 ->
  1 <= MaxRetries c ->
  is_Some (attempt_error w p 0 0) ->
  (Backoff c 0 = None \/
   exists d, Backoff c 0 = Some d /\ tick_duration d <= 0) ->
  (forall sched st,
     exec w p sched (pester c p) = Some st ->
     returned st = None /\
     (workers st = [AtLoop 0 (Some empty_Response) None] \/
      workers st = [Attempting 0 (Some empty_Response) None] \/
      workers st = [Blocked] \/ workers st = [Panicked])) /\
  ~ can_return w c p.
Proof.
  intros Hknown Hb Hc HN Hfail Hblock.
  assert (forall sched st,
            exec w p sched (pester c p) = Some st -> stuck_inv c st) as Hinv.
  { intros sched st. apply (exec_invariant w p (stuck_inv c)).
    - intros a st1 st2. by apply stuck_inv_step.
    - by eapply stuck_inv_start. }
  split.
  - intros sched st Hex.
    destruct (Hinv sched st Hex) as (Hnone & _ & _ & _ & Hws). done.
  - intros (sched & st & Hex & Hret).
    destruct (Hinv sched st Hex) as (Hnone & _). rewrite Hnone in Hret.
    by destruct Hret.
Qed.

Lemma blocking_backoff_never_returns_witness :
  (forall sched st,
     exec always_500 (Get_params "http://h/") sched
          (pester negative_backoff (Get_params "http://h/")) = Some st ->
     returned st = None /\
     (workers st = [AtLoop 0 (Some empty_Response) None] \/
      workers st = [Attempting 0 (Some empty_Response) None] \/
      workers st = [Blocked] \/ workers st = [Panicked])) /\
  ~ can_return always_500 negative_backoff (Get_params "http://h/").
Proof.
  apply (blocking_backoff_never_returns always_500 negative_backoff
           (Get_params "http://h/") ([], [])).
  - reflexivity.
  - reflexivity.
  - reflexivity.
  - simpl. lia.
  - by eexists.
  - right. exists (-1000000000). split; [reflexivity|].
    vm_compute. discriminate.
Defined.

(** ** What a step does *)

Section Steps.

Variable w : World.
Variable p : params.

(** The step of a worker at the top of its loop. *)
Lemma work_AtLoop n st i resp err :
  crashed st = false ->
  workers st !! n = Some (AtLoop i resp err) ->
  exists ws',
    work w p n st = Some (set_worker st n ws') /\
    (i < MaxRetries (client st) /\ finished st = true /\ ws' = Done \/
     i < MaxRetries (client st) /\ finished st = false /\
     ws' = Attempting i resp err \/
     MaxRetries (client st) <= i /\
     ws' = Sending {| res_resp := resp; res_err := err;
                      res_req := 0; res_retry := 0 |}).
Proof.
  intros Hcr Hk. unfold work. rewrite Hcr, Hk.
  destruct (Z.ltb_spec i (MaxRetries (client st))) as [Hlt|Hge].
  - destruct (finished st); eexists; (split; [reflexivity|]); auto.
  - eexists. split; [reflexivity|]. auto.
Qed.

(** The step of a worker at its raw call. *)
Lemma work_Attempting_shape n st st' i resp err :
  workers st !! n = Some (Attempting i resp err) ->
  work w p n st = Some st' ->
  crashed st = false /\
  finished st' = finished st /\ returned st' = returned st /\
  attempts st'
  = attempts st ++ (if known_method (p_method p)
                    then [attempt_of p (Z.of_nat n) i] else []) /\
  (exists ws', workers st' = <[n := ws']> (workers st) /\
               attempting ws' = 0%nat /\
               forall N, (retries_left N ws' <= Z.to_nat (N - (i + 1)))%nat) /\
  (client st' = client st /\ sink st' = sink st \/
   exists e, (client st', sink st')
             = log (client st) (sink st)
                   (failure_entry w p (Z.of_nat n) i e)).
Proof.
  intros Hk. unfold work. destruct (crashed st); [done|]. rewrite Hk.
  assert (forall l : list Attempt,
            (if known_method (p_method p)
             then l ++ [attempt_of p (Z.of_nat n) i] else l)
            = l ++ (if known_method (p_method p)
                    then [attempt_of p (Z.of_nat n) i] else [])) as Hmade.
  { intros l. destruct (known_method (p_method p)); [done|].
    by rewrite app_nil_r. }
  rewrite Hmade.
  destruct (classify (route w p (Z.of_nat n) i resp err)) as [r|resp' e|].
  - intros [= <-]. simpl. do 4 (split; [done|]). split; [|by left].
    eexists. split; [reflexivity|]. split; [done|]. intros N. simpl. lia.
  - destruct (log (client st) (sink st)
                  (failure_entry w p (Z.of_nat n) i e)) as [c' out'] eqn:Hl.
    destruct (Backoff (client st) i) as [d|]; intros [= <-]; simpl.
    + do 4 (split; [done|]). split; [|right; exists e; by rewrite Hl].
      eexists. split; [reflexivity|].
      destruct (GoInt.add d (GoInt.mul 1 Microsecond) <=? 0);
        (split; [done|]); intros N; simpl; lia.
    + do 4 (split; [done|]). split; [|right; exists e; by rewrite Hl].
      eexists. split; [reflexivity|]. split; [done|]. intros N. simpl. lia.
  - intros [= <-]. simpl. do 4 (split; [done|]). split; [|by left].
    eexists. split; [reflexivity|]. split; [done|]. intros N. simpl. lia.
Qed.

Lemma work_Some n st st' :
  work w p n st = Some st' ->
  crashed st = false /\
  ((exists i resp err, workers st !! n = Some (AtLoop i resp err)) \/
   (exists i resp err, workers st !! n = Some (Attempting i resp err))).
Proof.
  unfold work. destruct (crashed st); [done|].
  destruct (workers st !! n) as [[i resp err|i resp err|res| | |]|];
    try done; eauto 10.
Qed.

Lemma log_ErrLog c out e :
  ErrLog (log c out e).1 = ErrLog c ++ (if KeepLog c then [e] else []).
Proof.
  rewrite log_client. destruct (KeepLog c); [done|]. by rewrite app_nil_r.
Qed.

Lemma log_Success c out e :
  SuccessReqNum (log c out e).1 = SuccessReqNum c /\
  SuccessRetryNum (log c out e).1 = SuccessRetryNum c.
Proof. rewrite log_client. by destruct (KeepLog c). Qed.

Ltac no_new_entry :=
  exists []; rewrite app_nil_r; split; [done|]; split; [simpl; lia|done].

(** What every step keeps. *)
Lemma step_frame a st st' :
  step w p a st = Some st' ->
  same_config (client st) (client st') /\
  (exists es, ErrLog (client st') = ErrLog (client st) ++ es /\
              (length es <= 1)%nat /\
              (KeepLog (client st) = false -> es = [])) /\
  (finished st = true -> finished st' = true) /\
  (is_Recv a = false ->
   returned st' = returned st /\
   SuccessReqNum (client st') = SuccessReqNum (client st) /\
   SuccessRetryNum (client st') = SuccessRetryNum (client st)) /\
  (is_Recv a = true -> returned st = None /\ is_Some (returned st')).
Proof.
  destruct a as [n|n]; simpl.
  - intros Hw. destruct (work_Some n st st' Hw)
      as [Hcr [(i & resp & err & Hk)|(i & resp & err & Hk)]].
    + destruct (work_AtLoop n st i resp err Hcr Hk) as (ws' & Hw' & _).
      rewrite Hw' in Hw. injection Hw as <-. simpl.
      split; [by apply same_config_refl|].
      split; [no_new_entry|].
      split; [done|]. split; [done|]. intros [=].
    + destruct (work_Attempting_shape n st st' i resp err Hk Hw)
        as (_ & Hfin & Hret & _ & _ & Hcl).
      destruct Hcl as [[-> _]|(e & Hl)].
      * split; [by apply same_config_refl|].
        split; [no_new_entry|].
        split; [congruence|]. split; [done|]. intros [=].
      * assert (client st' = (log (client st) (sink st)
                                (failure_entry w p (Z.of_nat n) i e)).1)
          as -> by (by rewrite <- Hl).
        split; [by apply same_config_log, same_config_refl|]. split.
        { eexists. split; [apply log_ErrLog|].
          destruct (KeepLog (client st)); simpl; split; (lia || done). }
        split; [congruence|]. split; [|intros [=]].
        intros _. split; [done|]. apply log_Success.
  - intros Hr. destruct (recv_Some n st st' Hr)
      as (res & _ & Hnone & _ & Hret & Hcl & Hfin).
    rewrite Hcl. split; [by apply same_config_set_Success, same_config_refl|].
    split; [no_new_entry|].
    split; [done|]. split; [intros [=]|]. intros _. split; [done|].
    rewrite Hret. by eexists.
Qed.

End Steps.

(** ** What a run keeps *)

Lemma same_config_trans c1 c2 c3 :
  same_config c1 c2 -> same_config c2 c3 -> same_config c1 c3.
Proof.
  unfold same_config. intros (? & ? & ? & ? & ? & ? & ?)
                             (? & ? & ? & ? & ? & ? & ?).
  repeat split; congruence.
Qed.

(** X5.  A call never touches the configuration that it reads from its
    client and never removes or rewrites an entry of its log: from whatever
    state a schedule runs, [MaxRetries], [KeepLog], [Backoff],
    [Concurrency], [Logger], [LogWriter] and [LogRetries] are the same
    after it, the log after it is the log before it followed by at most one
    new entry per action (by none when [KeepLog] is off), and [LogString]
    is what it was followed by the lines of the new entries. *)
Theorem run_keeps_config_and_log
        (w : World) (p : params) (sched : list action) (st st' : state) :
  exec w p sched st = Some st' ->
  same_config (client st) (client st') /\
  exists es,
    ErrLog (client st') = ErrLog (client st) ++ es /\
    (length es <= length sched)%nat /\
    (KeepLog (client st) = false -> es = []) /\
    LogString (client st')
    = LogString (client st) +:+ concat_lines (map Sprintf_entry es).
Proof.
  revert st. induction sched as [|a sched IH]; intros st; simpl.
  - intros [= <-]. split; [apply same_config_refl|].
    exists []. rewrite app_nil_r. split; [done|]. split; [done|].
    split; [done|]. unfold concat_lines. simpl.
    by rewrite string_app_nil_r.
  - destruct (step w p a st) as [st1|] eqn:Ha; simpl; [|done].
    intros Hex.
    destruct (step_frame w p a st st1 Ha)
      as (Hcfg & (es1 & Hlog1 & Hlen1 & Hno1) & _).
    destruct (IH st1 Hex) as (Hcfg' & es2 & Hlog2 & Hlen2 & Hno2 & _).
    split; [by eapply same_config_trans|].
    exists (es1 ++ es2).
    split; [by rewrite Hlog2, Hlog1, (assoc_L (++))|].
    split; [rewrite length_app; lia|]. split.
    + intros Hk. rewrite (Hno1 Hk), Hno2; [done|].
      destruct Hcfg as (_ & -> & _). done.
    + rewrite !LogString_concat, Hlog2, Hlog1, <- (assoc_L (++)).
      by rewrite map_app, concat_lines_app.
Qed.

Lemma run_keeps_config_and_log_witness :
  exists st',
    exec always_500 (Get_params "http://h/") [Work 0; Work 0; Work 0; Work 0]
         (Client_Get two_failures "http://h/") = Some st' /\
    length (ErrLog (client st')) = 4%nat /\
    same_config two_failures (client st') /\
    exists es,
      ErrLog (client st') = ErrLog two_failures ++ es /\
      LogString (client st')
      = LogString two_failures +:+ concat_lines (map Sprintf_entry es).
Proof.
  destruct (exec always_500 (Get_params "http://h/")
              [Work 0; Work 0; Work 0; Work 0]
              (Client_Get two_failures "http://h/")) as [st'|] eqn:Hex;
    [|by vm_compute in Hex].
  exists st'. split; [done|].
  destruct (run_keeps_config_and_log always_500 (Get_params "http://h/")
              _ _ st' Hex) as (Hcfg & es & Hlog & _ & _ & Hstr).
  split; [|split; [exact Hcfg|]].
  - vm_compute in Hex. injection Hex as <-. reflexivity.
  - exists es. split; [exact Hlog|exact Hstr].
Defined.

Lemma run_after_return w p sched st st' :
  exec w p sched st = Some st' ->
  is_Some (returned st) ->
  returned st' = returned st /\
  SuccessReqNum (client st') = SuccessReqNum (client st) /\
  SuccessRetryNum (client st') = SuccessRetryNum (client st) /\
  count_Recv sched = 0%nat.
Proof.
  revert st. induction sched as [|a sched IH]; intros st; simpl.
  - by intros [= <-].
  - destruct (step w p a st) as [st1|] eqn:Ha; simpl; [|done].
    intros Hex Hret.
    destruct (step_frame w p a st st1 Ha) as (_ & _ & _ & Hwork & Hrecv).
    destruct (is_Recv a) eqn:Hra.
    + destruct (Hrecv eq_refl) as [Hnone _]. rewrite Hnone in Hret.
      by destruct Hret.
    + destruct (Hwork eq_refl) as (Hr1 & Hq1 & Ht1).
      destruct (IH st1 Hex) as (Hr2 & Hq2 & Ht2 & Hc); [by rewrite Hr1|].
      unfold count_Recv in *. rewrite filter_cons_False by (by rewrite Hra).
      repeat split; congruence.
Qed.

Lemma run_receives_once w p sched st st' :
  exec w p sched st = Some st' ->
  (count_Recv sched <= 1)%nat /\
  (count_Recv sched = 1%nat -> is_Some (returned st')) /\
  (count_Recv sched = 0%nat -> returned st' = returned st).
Proof.
  revert st. induction sched as [|a sched IH]; intros st; simpl.
  - intros [= <-]. unfold count_Recv. simpl. split; [lia|]. split; [lia|done].
  - destruct (step w p a st) as [st1|] eqn:Ha; simpl; [|done].
    intros Hex.
    destruct (step_frame w p a st st1 Ha) as (_ & _ & _ & Hwork & Hrecv).
    destruct (is_Recv a) eqn:Hra.
    + destruct (Hrecv eq_refl) as [_ Hsome].
      destruct (run_after_return w p sched st1 st' Hex Hsome)
        as (Hr & _ & _ & Hc).
      unfold count_Recv in *. rewrite filter_cons_True by done. simpl.
      rewrite Hc. split; [lia|]. split; [|lia]. intros _. by rewrite Hr.
    + destruct (Hwork eq_refl) as (Hr1 & _).
      destruct (IH st1 Hex) as (Hle & Hone & Hzero).
      unfold count_Recv in *. rewrite filter_cons_False by (by rewrite Hra).
      split; [done|]. split; [done|]. intros Hc. by rewrite Hzero.
Qed.

(** X6.  The orchestrator receives once.  A schedule of a call has at most
    one receive; the call has returned after it exactly when it has one, or
    when the body could not be read; and once the call has returned,
    whatever the workers still do, the response and the error returned and
    the two success numbers stay as they are: a late result is never
    taken. *)
Theorem orchestrator_receives_once
        (w : World) (c : Client) (p : params)
        (s1 s2 : list action) (st1 st2 : state) :
  exec w p s1 (pester c p) = Some st1 ->
  exec w p s2 st1 = Some st2 ->
  (count_Recv (s1 ++ s2) <= 1)%nat /\
  (is_Some (returned st1) <->
   count_Recv s1 = 1%nat \/ is_Some (returned (pester c p))) /\
  (is_Some (returned st1) ->
   returned st2 = returned st1 /\
   SuccessReqNum (client st2) = SuccessReqNum (client st1) /\
   SuccessRetryNum (client st2) = SuccessRetryNum (client st1) /\
   count_Recv s2 = 0%nat).
Proof.
  intros H1 H2.
  assert (exec w p (s1 ++ s2) (pester c p) = Some st2) as H12.
  { rewrite exec_app, H1. done. }
  destruct (run_receives_once w p _ _ _ H12) as (Hle & _).
  destruct (run_receives_once w p _ _ _ H1) as (Hle1 & Hone & Hzero).
  split; [done|]. split; [|apply (run_after_return w p s2 st1 st2 H2)].
  split.
  - intros Hret.
    destruct (decide (count_Recv s1 = 1%nat)) as [?|Hne]; [by left|].
    right. rewrite <- Hzero by lia. done.
  - intros [Hc|Hstart]; [by apply Hone|].
    by destruct (run_after_return w p s1 _ st1 H1 Hstart) as (-> & _).
Qed.

Lemma orchestrator_receives_once_witness :
  exists st1 st2,
    exec always_refused (Get_params "http://h/")
         [Work 1; Work 1; Work 1; Recv 1]
         (pester two_at_once (Get_params "http://h/")) = Some st1 /\
    exec always_refused (Get_params "http://h/")
         [Work 0; Recv 0] st1 = None /\
    exec always_refused (Get_params "http://h/") [Work 0] st1 = Some st2 /\
    returned st2 = returned st1 /\
    returned st2 = Some (None, Some "connection refused") /\
    workers st2 = [Done; Done].
Proof.
  destruct (exec always_refused (Get_params "http://h/")
              [Work 1; Work 1; Work 1; Recv 1]
              (pester two_at_once (Get_params "http://h/")))
    as [st1|] eqn:Hex1; [|by vm_compute in Hex1].
  destruct (exec always_refused (Get_params "http://h/") [Work 0] st1)
    as [st2|] eqn:Hex2;
    [|by vm_compute in Hex1; injection Hex1 as <-; vm_compute in Hex2].
  exists st1, st2. split; [done|].
  assert (is_Some (returned st1)) as Hret1.
  { vm_compute in Hex1. injection Hex1 as <-. by eexists. }
  destruct (orchestrator_receives_once always_refused two_at_once
              (Get_params "http://h/") _ _ st1 st2 Hex1 Hex2)
    as (_ & _ & Hfinal).
  destruct (Hfinal Hret1) as (Hret & _).
  vm_compute in Hex1. injection Hex1 as <-.
  vm_compute in Hex2. injection Hex2 as <-.
  split; [by vm_compute|]. split; [done|]. split; [exact Hret|].
  split; reflexivity.
Defined.

(** ** How many raw calls a call makes *)

Section Counting.

Variable w : World.
Variable p : params.

Lemma recv_shape n st st' :
  recv n st = Some st' ->
  exists res,
    workers st !! n = Some (Sending res) /\
    workers st' = <[n := Done]> (workers st) /\
    attempts st' = attempts st /\ sink st' = sink st /\
    MaxRetries (client st') = MaxRetries (client st).
Proof.
  intros Hr. destruct (recv_Some n st st' Hr)
    as (res & Hk & Hnone & Hcr & _).
  unfold recv in Hr. rewrite Hcr, Hnone, Hk in Hr. injection Hr as <-.
  by exists res.
Qed.

Lemma length_attempts_step (l : list Attempt) n i :
  (length (l ++ (if known_method (p_method p)
                 then [attempt_of p n i] else []))
   <= S (length l))%nat.
Proof.
  rewrite length_app. destruct (known_method (p_method p)); simpl; lia.
Qed.

(** A step uses up the retries that it makes. *)
Lemma step_retries_left a st st' :
  step w p a st = Some st' ->
  (length (attempts st') + total_retries_left st'
   <= length (attempts st) + total_retries_left st)%nat.
Proof.
  intros Ha.
  destruct (step_frame w p a st st' Ha) as ((HN & _) & _).
  unfold total_retries_left. rewrite HN.
  destruct a as [n|n]; simpl in Ha.
  - destruct (work_Some w p n st st' Ha)
      as [Hcr [(i & resp & err & Hk)|(i & resp & err & Hk)]].
    + destruct (work_AtLoop w p n st i resp err Hcr Hk) as (ws' & Hw' & Hc).
      rewrite Hw' in Ha. injection Ha as <-. simpl.
      pose proof (sum_list_insert (retries_left (MaxRetries (client st)))
                    (workers st) n _ ws' Hk) as Hsum.
      simpl in Hsum.
      destruct Hc as [(_ & _ & ->)|[(Hlt & _ & ->)|(_ & ->)]];
        simpl in Hsum; lia.
    + destruct (work_Attempting_shape w p n st st' i resp err Hk Ha)
        as (_ & _ & _ & Hatt & (ws' & Hws & _ & Hleft) & _).
      rewrite Hatt, Hws.
      pose proof (length_attempts_step (attempts st) (Z.of_nat n) i).
      pose proof (sum_list_insert (retries_left (MaxRetries (client st)))
                    (workers st) n _ ws' Hk) as Hsum.
      specialize (Hleft (MaxRetries (client st))). simpl in Hsum. lia.
  - destruct (recv_shape n st st' Ha) as (res & Hk & Hws & Hatt & _).
    rewrite Hatt, Hws.
    pose proof (sum_list_insert (retries_left (MaxRetries (client st)))
                  (workers st) n _ Done Hk) as Hsum.
    simpl in Hsum. lia.
Qed.

Lemma exec_retries_left sched st st' :
  exec w p sched st = Some st' ->
  (length (attempts st') + total_retries_left st'
   <= length (attempts st) + total_retries_left st)%nat.
Proof.
  revert st. induction sched as [|a sched IH]; intros st; simpl.
  - by intros [= <-].
  - destruct (step w p a st) as [st1|] eqn:Ha; simpl; [|done].
    intros Hex. specialize (IH st1 Hex).
    pose proof (step_retries_left a st st1 Ha). lia.
Qed.

(** Once [finishCh] is closed no worker passes its check any more. *)
Lemma step_after_finish a st st' :
  finished st = true ->
  step w p a st = Some st' ->
  (length (attempts st') + count_attempting st'
   <= length (attempts st) + count_attempting st)%nat.
Proof.
  intros Hfin Ha. unfold count_attempting.
  destruct a as [n|n]; simpl in Ha.
  - destruct (work_Some w p n st st' Ha)
      as [Hcr [(i & resp & err & Hk)|(i & resp & err & Hk)]].
    + destruct (work_AtLoop w p n st i resp err Hcr Hk) as (ws' & Hw' & Hc).
      rewrite Hw' in Ha. injection Ha as <-. simpl.
      pose proof (sum_list_insert attempting (workers st) n _ ws' Hk)
        as Hsum.
      simpl in Hsum.
      destruct Hc as [(_ & _ & ->)|[(_ & Hf & _)|(_ & ->)]];
        [simpl in Hsum; lia|congruence|simpl in Hsum; lia].
    + destruct (work_Attempting_shape w p n st st' i resp err Hk Ha)
        as (_ & _ & _ & Hatt & (ws' & Hws & Hzero & _) & _).
      rewrite Hatt, Hws.
      pose proof (length_attempts_step (attempts st) (Z.of_nat n) i).
      pose proof (sum_list_insert attempting (workers st) n _ ws' Hk)
        as Hsum.
      simpl in Hsum. lia.
  - destruct (recv_shape n st st' Ha) as (res & Hk & Hws & Hatt & _).
    rewrite Hatt, Hws.
    pose proof (sum_list_insert attempting (workers st) n _ Done Hk)
      as Hsum.
    simpl in Hsum. lia.
Qed.

Lemma exec_after_finish sched st st' :
  finished st = true ->
  exec w p sched st = Some st' ->
  (length (attempts st') + count_attempting st'
   <= length (attempts st) + count_attempting st)%nat.
Proof.
  revert st. induction sched as [|a sched IH]; intros st Hfin; simpl.
  - by intros [= <-].
  - destruct (step w p a st) as [st1|] eqn:Ha; simpl; [|done].
    intros Hex.
    destruct (step_frame w p a st st1 Ha) as (_ & _ & Hf & _).
    specialize (IH st1 (Hf Hfin) Hex).
    pose proof (step_after_finish a st st1 Hfin Ha). lia.
Qed.

Lemma returned_finished c sched st :
  exec w p sched (pester c p) = Some st ->
  is_Some (returned st) -> finished st = true \/ workers st = [].
Proof.
  apply (exec_invariant w p
           (fun st => is_Some (returned st) ->
                      finished st = true \/ workers st = [])).
  - intros a st1 st2 IH Ha Hret.
    destruct (step_frame w p a st1 st2 Ha) as (_ & _ & Hf & Hwork & Hrecv).
    destruct a as [n|n].
    + destruct (Hwork eq_refl) as (Hr & _). rewrite Hr in Hret.
      destruct (IH Hret) as [Hfin|Hnil]; [by left; apply Hf|].
      by rewrite step_no_workers in Ha.
    + left.
      by destruct (recv_Some n st1 st2 Ha) as (res & _ & _ & _ & _ & _ & ?).
  - unfold pester. destruct (read_bodies p); simpl; [by right|].
    by intros [? [=]].
Qed.

End Counting.

Lemma sum_list_replicate (f : wstate -> nat) n x :
  sum_list (map f (replicate n x)) = (n * f x)%nat.
Proof. induction n as [|n IH]; simpl; [done|]. rewrite IH. lia. Qed.

(** X7.  A call makes at most [MaxRetries] raw calls for each worker that
    it starts: however the workers are scheduled, the number of raw calls
    made is at most the effective concurrency times [MaxRetries] (none when
    either is 0 or negative). *)
Theorem attempts_bounded
        (w : World) (c : Client) (p : params)
        (sched : list action) (st : state) :
  exec w p sched (pester c p) = Some st ->
  (length (attempts st)
   <= Z.to_nat (concurrency c p) * Z.to_nat (MaxRetries c))%nat.
Proof.
  intros Hex. pose proof (exec_retries_left w p sched _ st Hex) as Hle.
  assert (length (attempts (pester c p)) = 0%nat /\
          (total_retries_left (pester c p)
           <= Z.to_nat (concurrency c p) * Z.to_nat (MaxRetries c))%nat)
    as [H0 Hpot].
  { unfold total_retries_left, pester.
    destruct (read_bodies p); simpl; [split; [done|lia]|].
    split; [done|]. rewrite sum_list_replicate. simpl.
    replace (MaxRetries c - 0) with (MaxRetries c) by lia. done. }
  lia.
Qed.

Lemma attempts_bounded_witness :
  exists st,
    exec always_500 (Get_params "http://h/")
         [Work 0; Work 0; Work 0; Work 0; Work 0; Work 0; Work 0; Recv 0]
         (Get DefaultClient "http://h/") = Some st /\
    length (attempts st) = 3%nat /\
    (length (attempts st)
     <= Z.to_nat (concurrency (New DefaultClient) (Get_params "http://h/"))
        * Z.to_nat (MaxRetries (New DefaultClient)))%nat.
Proof.
  destruct (exec always_500 (Get_params "http://h/")
              [Work 0; Work 0; Work 0; Work 0; Work 0; Work 0; Work 0; Recv 0]
              (Get DefaultClient "http://h/")) as [st|] eqn:Hex;
    [|by vm_compute in Hex].
  exists st. split; [done|]. split.
  - vm_compute in Hex. injection Hex as <-. reflexivity.
  - exact (attempts_bounded always_500 (New DefaultClient)
             (Get_params "http://h/") _ st Hex).
Defined.

(** X8.  Once the call has returned, a worker makes no new attempt: only
    the workers that were past the check of [finishCh] at that moment still
    make a raw call, one each, so that the raw calls made later, together
    with the workers then still past their check, are never more than the
    workers that were past it when the call returned. *)
Theorem no_new_attempt_after_return
        (w : World) (c : Client) (p : params)
        (s1 s2 : list action) (st1 st2 : state) :
  exec w p s1 (pester c p) = Some st1 ->
  is_Some (returned st1) ->
  exec w p s2 st1 = Some st2 ->
  (length (attempts st2) + count_attempting st2
   <= length (attempts st1) + count_attempting st1)%nat.
Proof.
  intros H1 Hret H2.
  destruct (returned_finished w p c s1 st1 H1 Hret) as [Hfin|Hnil].
  - by apply (exec_after_finish w p s2).
  - destruct s2 as [|a s2]; simpl in H2.
    + by injection H2 as <-.
    + by rewrite step_no_workers in H2.
Qed.

Lemma no_new_attempt_after_return_witness :
  exists st1 st2,
    exec always_200 (Get_params "http://h/")
         [Work 0; Work 1; Work 0; Recv 0]
         (Client_Get five_at_once "http://h/") = Some st1 /\
    exec always_200 (Get_params "http://h/")
         [Work 1; Work 2; Work 3; Work 4] st1 = Some st2 /\
    length (attempts st1) = 1%nat /\ count_attempting st1 = 1%nat /\
    length (attempts st2) = 2%nat /\ count_attempting st2 = 0%nat /\
    (length (attempts st2) + count_attempting st2
     <= length (attempts st1) + count_attempting st1)%nat.
Proof.
  destruct (exec always_200 (Get_params "http://h/")
              [Work 0; Work 1; Work 0; Recv 0]
              (Client_Get five_at_once "http://h/"))
    as [st1|] eqn:Hex1; [|by vm_compute in Hex1].
  destruct (exec always_200 (Get_params "http://h/")
              [Work 1; Work 2; Work 3; Work 4] st1)
    as [st2|] eqn:Hex2;
    [|by vm_compute in Hex1; injection Hex1 as <-; vm_compute in Hex2].
  exists st1, st2. split; [done|]. split; [done|].
  assert (is_Some (returned st1)) as Hret1.
  { vm_compute in Hex1. injection Hex1 as <-. by eexists. }
  pose proof (no_new_attempt_after_return always_200 five_at_once
                (Get_params "http://h/") _ _ st1 st2 Hex1 Hret1 Hex2)
    as Hle.
  vm_compute in Hex1. injection Hex1 as <-.
  vm_compute in Hex2. injection Hex2 as <-.
  do 4 (split; [reflexivity|]). exact Hle.
Defined.

(** ** The error that a call returns *)

Lemma attempt_verdict_Success w p n i r :
  attempt_verdict w p n i = Success r ->
  transport w (attempt_of p n i) = Returned r /\ StatusCode r < 400.
Proof.
  unfold attempt_verdict.
  destruct (transport w (attempt_of p n i)) as [r'|[r'|] e]; simpl;
    [|done..].
  destruct (Z.ltb_spec (StatusCode r') 400); [|done].
  by intros [= <-].
Qed.

(** X9.  With at least one retry allowed, the error that a call returns
    tells how it went.  A nil error comes with the response of a raw call
    of the winning worker whose status is below 400, made at the retry
    that [SuccessRetryNum] names after that worker failed, and logged, each
    earlier retry.  A non-nil error is the error of the last of
    [MaxRetries] failed attempts of the worker whose outcome was
    received. *)
Theorem returned_error_tells_outcome
        (w : World) (c : Client) (p : params)
        (sched : list action) (st st' : state) (k : nat) :
  known_method (p_method p) = true ->
  1 <= MaxRetries c ->
  exec w p sched (pester c p) = Some st ->
  step w p (Recv k) st = Some st' ->
  exists new (m : nat),
    ErrLog (client st') = ErrLog c ++ new /\
    (KeepLog c = true ->
     entries_of k new = map (attempt_entry w p (Z.of_nat k)) (seq 0 m)) /\
    ((exists r,
        returned st' = Some (Some r, None) /\
        transport w (attempt_of p (Z.of_nat k) (Z.of_nat m)) = Returned r /\
        StatusCode r < 400 /\ Z.of_nat m < MaxRetries c /\
        SuccessReqNum (client st') = Z.of_nat k /\
        SuccessRetryNum (client st') = Z.of_nat m) \/
     (exists resp e,
        returned st' = Some (resp, Some e) /\
        Z.of_nat m = MaxRetries c /\
        attempt_error w p (Z.of_nat k) (MaxRetries c - 1) = Some e)).
Proof.
  intros Hknown HN Hex Hrecv. simpl in Hrecv.
  destruct (recv_Some k st st' Hrecv)
    as (res & Hk & _ & _ & Hret & Hcl & _).
  destruct (sending_worker w p Hknown c sched st k res Hex Hk)
    as (m & new & Hlog & Hent & Hfail & Hcase).
  exists new, m. rewrite Hcl. split; [done|]. split; [done|].
  destruct Hcase as [(Hlt & r & Hv & ->)|(Hm & _ & _ & _ & HS)].
  - left. exists r.
    destruct (attempt_verdict_Success w p _ _ r Hv) as [Ht Hs].
    rewrite Hret. done.
  - right. destruct m as [|m']; [lia|].
    destruct (HS m' eq_refl) as [Hresp Herr].
    destruct (Hfail m' ltac:(lia)) as [e He].
    exists (res_resp res), e. rewrite Hret, Herr, He.
    split; [done|]. split; [lia|].
    replace (MaxRetries c - 1) with (Z.of_nat m') by lia. done.
Qed.

Lemma returned_error_tells_outcome_witness :
  exists st st' new,
    exec always_200 (Get_params "http://h/") [Work 1; Work 1]
         (Client_Get five_at_once "http://h/") = Some st /\
    step always_200 (Get_params "http://h/") (Recv 1) st = Some st' /\
    returned st' = Some (Some (mkResponse "200 OK" 200), None) /\
    ErrLog (client st') = ErrLog five_at_once ++ new /\
    entries_of 1 new = [] /\
    SuccessReqNum (client st') = 1 /\ SuccessRetryNum (client st') = 0.
Proof.
  destruct (exec always_200 (Get_params "http://h/") [Work 1; Work 1]
              (Client_Get five_at_once "http://h/"))
    as [st|] eqn:Hex; [|by vm_compute in Hex].
  destruct (step always_200 (Get_params "http://h/") (Recv 1) st)
    as [st'|] eqn:Hst;
    [|by vm_compute in Hex; injection Hex as <-; vm_compute in Hst].
  destruct (returned_error_tells_outcome always_200 five_at_once
              (Get_params "http://h/") _ st st' 1%nat
              eq_refl ltac:(simpl; lia) Hex Hst)
    as (new & m & Hlog & Hent & Hcase).
  exists st, st', new. split; [done|]. split; [done|].
  vm_compute in Hex. injection Hex as <-.
  vm_compute in Hst. injection Hst as <-.
  split; [reflexivity|]. split; [exact Hlog|]. split; [|split; reflexivity].
  destruct Hcase as [(r & _ & _ & _ & _ & _ & Hm)|(resp & e & [=] & _)].
  assert (m = 0%nat) as -> by (simpl in Hm; lia).
  exact (Hent eq_refl).
Defined.

(** ** A transport that never fails *)

Section AlwaysSucceeds.

Variable w : World.
Variable p : params.
Hypothesis Hknown : known_method (p_method p) = true.
Hypothesis Hgood : always_succeeds w p.

Lemma always_succeeds_verdict n i resp err :
  exists r, transport w (attempt_of p n i) = Returned r /\
            StatusCode r < 400 /\
            classify (route w p n i resp err) = Success r.
Proof.
  destruct (Hgood n i) as (r & Ht & Hs). exists r.
  split; [done|]. split; [done|].
  rewrite (route_known w p _ _ _ _ Hknown), Ht. simpl.
  by destruct (Z.ltb_spec (StatusCode r) 400); [|lia].
Qed.

Lemma always_succeeds_step a st st' :
  step w p a st = Some st' ->
  ErrLog (client st') = ErrLog (client st) /\ sink st' = sink st /\
  (length (attempts st') + total_calls_left st'
   <= length (attempts st) + total_calls_left st)%nat.
Proof.
  intros Ha. unfold total_calls_left.
  destruct a as [n|n]; simpl in Ha.
  - destruct (work_Some w p n st st' Ha)
      as [Hcr [(i & resp & err & Hk)|(i & resp & err & Hk)]].
    + destruct (work_AtLoop w p n st i resp err Hcr Hk) as (ws' & Hw' & Hc).
      rewrite Hw' in Ha. injection Ha as <-. simpl.
      split; [done|]. split; [done|].
      pose proof (sum_list_insert calls_left (workers st) n _ ws' Hk)
        as Hsum.
      simpl in Hsum.
      destruct Hc as [(_ & _ & ->)|[(_ & _ & ->)|(_ & ->)]];
        simpl in Hsum; lia.
    + destruct (work_attempting w p n st i resp err Hcr Hk)
        as (st1 & Hst1 & Hv).
      rewrite Hst1 in Ha. injection Ha as ->.
      destruct (always_succeeds_verdict (Z.of_nat n) i resp err)
        as (r & _ & _ & Hcl).
      rewrite Hcl in Hv. destruct Hv as (Hsend & -> & -> & _).
      split; [done|]. split; [done|].
      destruct (work_Attempting_shape w p n st st' i resp err Hk Hst1)
        as (_ & _ & _ & Hatt & (ws' & Hws & _) & _).
      rewrite Hws in Hsend.
      rewrite list_lookup_insert_eq in Hsend by (by eapply lookup_lt_Some).
      injection Hsend as ->. rewrite Hatt, Hws.
      pose proof (length_attempts_step p (attempts st) (Z.of_nat n) i).
      pose proof (sum_list_insert calls_left (workers st) n _
                    (Sending (mkResult (Some r) None (Z.of_nat n) i)) Hk)
        as Hsum.
      simpl in Hsum. lia.
  - destruct (recv_shape n st st' Ha) as (res & Hk & Hws & Hatt & Hsink & _).
    destruct (recv_Some n st st' Ha) as (res' & _ & _ & _ & _ & Hcl & _).
    rewrite Hcl, Hatt, Hws. split; [done|]. split; [done|].
    pose proof (sum_list_insert calls_left (workers st) n _ Done Hk)
      as Hsum.
    simpl in Hsum. lia.
Qed.

Lemma always_succeeds_exec sched st st' :
  exec w p sched st = Some st' ->
  ErrLog (client st') = ErrLog (client st) /\ sink st' = sink st /\
  (length (attempts st') + total_calls_left st'
   <= length (attempts st) + total_calls_left st)%nat.
Proof.
  revert st. induction sched as [|a sched IH]; intros st; simpl.
  - by intros [= <-].
  - destruct (step w p a st) as [st1|] eqn:Ha; simpl; [|done].
    intros Hex. destruct (always_succeeds_step a st st1 Ha) as (H1 & H2 & H3).
    destruct (IH st1 Hex) as (H4 & H5 & H6).
    split; [congruence|]. split; [congruence|lia].
Qed.

End AlwaysSucceeds.



(** ** The sinks *)

Lemma log_sink c out e : (log c out e).2 = out ++ sink_events c e.
Proof.
  unfold log, sink_events. simpl.
  destruct (LogRetries c); [|by rewrite app_nil_r].
  destruct (Logger c), (LogWriter c); simpl;
    rewrite <- ?(assoc_L (++)), ?app_nil_r; done.
Qed.

Lemma sink_events_same_config c c' e :
  same_config c c' -> sink_events c' e = sink_events c e.
Proof.
  intros (_ & _ & _ & _ & Hl & Hw & Hr). unfold sink_events.
  by rewrite Hl, Hw, Hr.
Qed.

Section Sinks.

Variable w : World.
Variable p : params.
Variable c : Client.

Lemma sink_inv_start : sink_inv c (pester c p).
Proof.
  split.
  - unfold pester. destruct (read_bodies p); apply same_config_refl.
  - exists []. rewrite app_nil_r.
    unfold pester. by destruct (read_bodies p).
Qed.

Lemma sink_inv_step a st st' :
  sink_inv c st -> step w p a st = Some st' -> sink_inv c st'.
Proof.
  intros (Hcfg & new & Hlog & Hkeep & Hquiet) Ha.
  destruct (step_frame w p a st st' Ha) as (Hcfg' & _).
  pose proof (same_config_trans _ _ _ Hcfg Hcfg') as Hcfg2.
  split; [done|].
  destruct a as [n|n]; simpl in Ha.
  - destruct (work_Some w p n st st' Ha)
      as [Hcr [(i & resp & err & Hk)|(i & resp & err & Hk)]].
    + destruct (work_AtLoop w p n st i resp err Hcr Hk) as (ws' & Hw' & _).
      rewrite Hw' in Ha. injection Ha as <-. by exists new.
    + destruct (work_Attempting_shape w p n st st' i resp err Hk Ha)
        as (_ & _ & _ & _ & _ & [[-> ->]|(e & Hl)]); [by exists new|].
      assert (client st' = (log (client st) (sink st)
                              (failure_entry w p (Z.of_nat n) i e)).1 /\
              sink st' = (log (client st) (sink st)
                            (failure_entry w p (Z.of_nat n) i e)).2)
        as [-> ->] by (by rewrite <- Hl).
      rewrite log_sink, log_ErrLog, (sink_events_same_config c _ _ Hcfg).
      destruct Hcfg as (_ & HK & _). rewrite HK.
      assert (KeepLog c = true \/ KeepLog c = false) as [Hk'|Hk']
        by (destruct (KeepLog c); auto); rewrite Hk'.
      * exists (new ++ [failure_entry w p (Z.of_nat n) i e]).
        split; [by rewrite Hlog, (assoc_L (++))|]. split.
        -- intros _. rewrite flat_map_app, (Hkeep Hk'). simpl.
           by rewrite app_nil_r.
        -- intros Hq. by rewrite (Hquiet Hq), Hq.
      * exists new. split; [by rewrite app_nil_r|].
        split; [done|].
        intros Hq. by rewrite (Hquiet Hq), Hq.
  - destruct (recv_shape n st st' Ha) as (res & _ & _ & _ & Hsink & _).
    destruct (recv_Some n st st' Ha) as (res' & _ & _ & _ & _ & Hcl & _).
    rewrite Hcl, Hsink. by exists new.
Qed.

Lemma sink_inv_reachable sched st :
  exec w p sched (pester c p) = Some st -> sink_inv c st.
Proof.
  apply (exec_invariant w p (sink_inv c)).
  - intros a st1 st2. apply sink_inv_step.
  - apply sink_inv_start.
Qed.

End Sinks.



(** X12.  The functions of the package, which make their client with
    [New], do not log retries: [New] turns [LogRetries] on but leaves both
    sinks nil, so that however a call through [Do], [Get], [Head], [Post]
    or [PostForm] goes, nothing is written to a logger or to a writer. *)
Theorem package_functions_log_no_retry (w : World) (d : Client) :
  (forall p sched st,
     exec w p sched (pester (New d) p) = Some st -> sink st = []) /\
  (forall rq sched st,
     exec w (Do_params rq) sched (Do d rq) = Some st -> sink st = []) /\
  (forall url sched st,
     exec w (Get_params url) sched (Get d url) = Some st -> sink st = []) /\
  (forall url sched st,
     exec w (Head_params url) sched (Head d url) = Some st ->
     sink st = []) /\
  (forall url bt body sched st,
     exec w (Post_params url bt body) sched (Post d url bt body) = Some st ->
     sink st = []) /\
  (forall url data sched st,
     exec w (PostForm_params url data) sched (PostForm d url data)
     = Some st ->
     sink st = []).
Proof.
  assert (forall p sched st,
            exec w p sched (pester (New d) p) = Some st -> sink st = [])
    as Hall.
  { intros p sched st Hex.
    destruct (sink_inv_reachable w p (New d) sched st Hex)
      as (_ & new & _ & _ & Hquiet).
    by apply Hquiet. }
  split; [exact Hall|]. repeat split; intros; by eapply Hall.
Qed.

Lemma package_functions_log_no_retry_witness :
  exists st,
    exec always_500 (Head_params "http://h/")
         [Work 0; Work 0; Work 0; Work 0; Work 0; Work 0; Work 0; Recv 0]
         (Head DefaultClient "http://h/") = Some st /\
    length (attempts st) = 3%nat /\ sink st = [].
Proof.
  destruct (exec always_500 (Head_params "http://h/")
              [Work 0; Work 0; Work 0; Work 0; Work 0; Work 0; Work 0; Recv 0]
              (Head DefaultClient "http://h/")) as [st|] eqn:Hex;
    [|by vm_compute in Hex].
  exists st. split; [done|]. split.
  - vm_compute in Hex. injection Hex as <-. reflexivity.
  - destruct (package_functions_log_no_retry always_500 DefaultClient)
      as (_ & _ & _ & Hhead & _).
    exact (Hhead "http://h/" _ st Hex).
Defined.

(** ** The entries that a call logs *)

Section Entries.

Variable w : World.
Variable p : params.
Variable c : Client.

Lemma entries_inv_start : entries_inv w p c (pester c p).
Proof.
  split; [apply call_inv_start|]. split; [done|].
  exists []. rewrite app_nil_r. split; [|done].
  unfold pester. by destruct (read_bodies p).
Qed.

Lemma entries_inv_step a st st' :
  entries_inv w p c st -> step w p a st = Some st' -> entries_inv w p c st'.
Proof.
  intros (Hinv & Hlen & new & Hlog & Hall) Ha.
  split; [by eapply call_inv_step|].
  split; [by rewrite (step_workers_length w p a st st' Ha)|].
  destruct a as [n|n]; simpl in Ha.
  - destruct (work_Some w p n st st' Ha)
      as [Hcr [(i & resp & err & Hk)|(i & resp & err & Hk)]].
    + destruct (work_AtLoop w p n st i resp err Hcr Hk) as (ws' & Hw' & _).
      rewrite Hw' in Ha. injection Ha as <-. by exists new.
    + destruct (work_Attempting_shape w p n st st' i resp err Hk Ha)
        as (_ & _ & _ & _ & _ & [[-> _]|(e & Hl)]); [by exists new|].
      assert (client st' = (log (client st) (sink st)
                              (failure_entry w p (Z.of_nat n) i e)).1)
        as -> by (by rewrite <- Hl).
      rewrite log_ErrLog.
      exists (new ++ (if KeepLog (client st)
                      then [failure_entry w p (Z.of_nat n) i e] else [])).
      split; [by rewrite Hlog, (assoc_L (++))|].
      apply Forall_app. split; [done|].
      destruct (KeepLog (client st)); [|done].
      apply Forall_singleton.
      destruct Hinv as [_ (new0 & _ & _ & Hok)].
      destruct (Hok n _ Hk) as (m & [_ (-> & _ & Hlt)] & _).
      pose proof (lookup_lt_Some _ _ _ Hk) as Hn. rewrite Hlen in Hn.
      unfold entry_of_call. simpl. repeat split; try done; lia.
  - destruct (recv_Some n st st' Ha) as (res' & _ & _ & _ & _ & Hcl & _).
    rewrite Hcl. by exists new.
Qed.

Lemma entries_inv_reachable sched st :
  exec w p sched (pester c p) = Some st -> entries_inv w p c st.
Proof.
  apply (exec_invariant w p (entries_inv w p c)).
  - intros a st1 st2. apply entries_inv_step.
  - apply entries_inv_start.
Qed.

End Entries.

(** X13.  Every entry that a call adds to the log can be traced: it has
    the method, the verb and the URL of the call, the index of a worker
    that the call started, a retry index from 0 to [MaxRetries - 1], the
    time at which that retry failed and an error that is not nil. *)
Theorem logged_entries_name_the_call
        (w : World) (c : Client) (p : params)
        (sched : list action) (st : state) :
  exec w p sched (pester c p) = Some st ->
  exists new,
    ErrLog (client st) = ErrLog c ++ new /\
    Forall (fun e =>
              e_Method e = p_method p /\ e_Verb e = p_verb p /\
              e_URL e = p_url p /\ is_Some (e_Err e) /\
              0 <= e_Request e < concurrency c p /\
              0 <= e_Retry e < MaxRetries c /\
              e_Time e = clock w (e_Request e) (e_Retry e)) new.
Proof.
  intros Hex.
  destruct (entries_inv_reachable w p c sched st Hex)
    as (_ & _ & new & Hlog & Hall).
  exists new. split; [done|].
  eapply Forall_impl; [exact Hall|].
  intros e (Hm & Hv & Hu & He & Hr & Hi & Ht).
  assert (length (workers (pester c p)) <= Z.to_nat (concurrency c p))%nat
    as Hlen.
  { unfold pester. destruct (read_bodies p); simpl; [lia|].
    by rewrite length_replicate. }
  repeat split; try done; lia.
Qed.

Lemma logged_entries_name_the_call_witness :
  exists st new,
    exec always_refused (Get_params "http://h/")
         [Work 1; Work 0; Work 1; Work 0]
         (pester two_at_once (Get_params "http://h/")) = Some st /\
    length (ErrLog (client st)) = 2%nat /\
    ErrLog (client st) = ErrLog two_at_once ++ new /\
    Forall (fun e =>
              e_Method e = "Get" /\ e_Verb e = "GET" /\
              e_URL e = "http://h/" /\ is_Some (e_Err e) /\
              0 <= e_Request e < 2 /\ 0 <= e_Retry e < 1 /\
              e_Time e = 1700000000 + e_Retry e) new.
Proof.
  destruct (exec always_refused (Get_params "http://h/")
              [Work 1; Work 0; Work 1; Work 0]
              (pester two_at_once (Get_params "http://h/")))
    as [st|] eqn:Hex; [|by vm_compute in Hex].
  destruct (logged_entries_name_the_call always_refused two_at_once
              (Get_params "http://h/") _ st Hex) as (new & Hlog & Hall).
  exists st, new. split; [done|].
  split; [|split; [exact Hlog|exact Hall]].
  vm_compute in Hex. injection Hex as <-. reflexivity.
Defined.

(** ** Every call comes to return *)


(** ** Every call returns *)

Section Liveness.

Variable w : World.
Variable p : params.

(** The state of a worker after its raw call. *)
Lemma work_Attempting_next n st st' i resp err :
  workers st !! n = Some (Attempting i resp err) ->
  work w p n st = Some st' ->
  exists ws',
    workers st' = <[n := ws']> (workers st) /\
    match classify (route w p (Z.of_nat n) i resp err) with
    | Success r =>
        ws' = Sending (mkResult (Some r) None (Z.of_nat n) i) /\
        crashed st' = false
    | Failure resp' e =>
        match Backoff (client st) i with
        | Some d =>
            ws' = (if tick_duration d <=? 0 then Blocked
                   else AtLoop (i + 1) resp' (Some e)) /\
            crashed st' = false
        | None => ws' = Panicked /\ crashed st' = true
        end
    | NilResponse => ws' = Panicked /\ crashed st' = true
    end.
Proof.
  intros Hk. unfold work. destruct (crashed st) eqn:Hcr; [done|]. rewrite Hk.
  destruct (classify (route w p (Z.of_nat n) i resp err)) as [r|resp' e|].
  - intros [= <-]. eexists. simpl. split; [reflexivity|done].
  - destruct (log (client st) (sink st)
                  (failure_entry w p (Z.of_nat n) i e)) as [c' out'].
    destruct (Backoff (client st) i) as [d|]; intros [= <-];
      eexists; simpl; (split; [reflexivity|done]).
  - intros [= <-]. eexists. simpl. split; [reflexivity|done].
Qed.

(** A worker at its raw call can always make it. *)
Lemma work_Attempting_enabled n st i resp err :
  crashed st = false ->
  workers st !! n = Some (Attempting i resp err) ->
  exists st', work w p n st = Some st'.
Proof.
  intros Hcr Hk. unfold work. rewrite Hcr, Hk.
  destruct (classify (route w p (Z.of_nat n) i resp err)) as [r|resp' e|];
    [by eexists| |by eexists].
  destruct (log (client st) (sink st)
                (failure_entry w p (Z.of_nat n) i e)) as [c' out'].
  destruct (Backoff (client st) i); by eexists.
Qed.

(** Every step uses up one of the steps that are left. *)
Lemma step_steps_bound a st st' :
  step w p a st = Some st' ->
  (S (total_steps_bound st') <= total_steps_bound st)%nat.
Proof.
  intros Ha.
  destruct (step_frame w p a st st' Ha) as ((HN & _) & _).
  unfold total_steps_bound. rewrite HN.
  set (N := MaxRetries (client st)) in *.
  destruct a as [n|n]; simpl in Ha.
  - destruct (work_Some w p n st st' Ha)
      as [Hcr [(i & resp & err & Hk)|(i & resp & err & Hk)]].
    + destruct (work_AtLoop w p n st i resp err Hcr Hk) as (ws' & Hw' & Hc).
      rewrite Hw' in Ha. injection Ha as <-. simpl.
      pose proof (sum_list_insert (steps_bound N) (workers st) n _ ws' Hk)
        as Hsum.
      simpl in Hsum. fold N in Hc.
      destruct Hc as [(Hlt & _ & ->)|[(Hlt & _ & ->)|(_ & ->)]];
        simpl in Hsum; lia.
    + destruct (work_Attempting_next n st st' i resp err Hk Ha)
        as (ws' & Hws & Hnext).
      rewrite Hws.
      pose proof (sum_list_insert (steps_bound N) (workers st) n _ ws' Hk)
        as Hsum.
      simpl in Hsum.
      assert (steps_bound N ws' <= 2 * Z.to_nat (N - (i + 1)) + 2)%nat.
      { destruct (classify (route w p (Z.of_nat n) i resp err))
          as [r|resp' e|].
        - destruct Hnext as [-> _]. simpl. lia.
        - destruct (Backoff (client st) i) as [d|].
          + destruct Hnext as [-> _].
            destruct (tick_duration d <=? 0); simpl; lia.
          + destruct Hnext as [-> _]. simpl. lia.
        - destruct Hnext as [-> _]. simpl. lia. }
      lia.
  - destruct (recv_shape n st st' Ha) as (res & Hk & Hws & _).
    rewrite Hws.
    pose proof (sum_list_insert (steps_bound N) (workers st) n _ Done Hk)
      as Hsum.
    simpl in Hsum. lia.
Qed.

Lemma exec_steps_bound sched st st' :
  exec w p sched st = Some st' ->
  (length sched + total_steps_bound st' <= total_steps_bound st)%nat.
Proof.
  revert st. induction sched as [|a sched IH]; intros st; simpl.
  - intros [= <-]. lia.
  - destruct (step w p a st) as [st1|] eqn:Ha; simpl; [|done].
    intros Hex. specialize (IH st1 Hex).
    pose proof (step_steps_bound a st st1 Ha). lia.
Qed.

Variable c : Client.

Lemma total_steps_bound_start :
  (total_steps_bound (pester c p)
   <= Z.to_nat (concurrency c p) * (2 * Z.to_nat (MaxRetries c) + 2))%nat.
Proof.
  unfold total_steps_bound, pester.
  destruct (read_bodies p); simpl; [lia|].
  rewrite sum_list_replicate. simpl.
  replace (MaxRetries c - 0) with (MaxRetries c) by lia. lia.
Qed.

Hypothesis Hknown : known_method (p_method p) = true.
Hypothesis Hwait : backoff_waits c (MaxRetries c).

Lemma known_verdict_not_nil n i resp err :
  classify (route w p n i resp err) <> NilResponse.
Proof.
  rewrite (route_known w p _ _ _ _ Hknown).
  destruct (transport w (attempt_of p n i)) as [r|[r|] e]; simpl; [|done..].
  by destruct (StatusCode r <? 400).
Qed.

Lemma live_inv_start : live_inv c (pester c p).
Proof.
  unfold live_inv, pester. destruct (read_bodies p); simpl.
  - do 3 (split; [done|]). split; [|done]. intros k ws Hl.
    by rewrite lookup_nil in Hl.
  - do 3 (split; [done|]). split; [|done]. intros k ws Hl.
    apply lookup_replicate in Hl as [-> _]. done.
Qed.

Lemma live_inv_step a st st' :
  live_inv c st -> step w p a st = Some st' -> live_inv c st'.
Proof.
  intros (Hcr & HN & HB & Hws & Hfin) Ha.
  destruct (step_frame w p a st st' Ha)
    as ((HN' & _ & HB' & _) & _ & _ & Hwork & Hrecv).
  destruct a as [n|n]; simpl in Ha.
  - destruct (Hwork eq_refl) as (Hret & _).
    destruct (work_Some w p n st st' Ha)
      as [_ [(i & resp & err & Hk)|(i & resp & err & Hk)]].
    + destruct (work_AtLoop w p n st i resp err Hcr Hk) as (ws' & Hw' & Hc).
      rewrite Hw' in Ha. injection Ha as <-.
      split; [done|]. split; [done|]. split; [done|]. split; [|done].
      simpl. intros k ws Hl. lookup_insert_cases Hl k n.
      * subst ws. specialize (Hws n _ Hk). simpl in Hws.
        destruct Hc as [(_ & Hfin' & ->)|[(Hlt & _ & ->)|(_ & ->)]];
          [|lia|done].
        destruct (returned st) eqn:Hr; [by eexists|].
        specialize (Hfin eq_refl). congruence.
      * exact (Hws k ws Hl).
    + destruct (work_Attempting_next n st st' i resp err Hk Ha)
        as (ws' & Hws' & Hnext).
      destruct (work_Attempting_shape w p n st st' i resp err Hk Ha)
        as (_ & Hfin' & _).
      pose proof (Hws n _ Hk) as Hi. simpl in Hi.
      pose proof (known_verdict_not_nil (Z.of_nat n) i resp err) as Hnn.
      assert (crashed st' = false /\
              match ws' with
              | AtLoop j _ _ => 0 <= j
              | Sending _ => True
              | _ => False
              end) as [Hcr' Hok].
      { destruct (classify (route w p (Z.of_nat n) i resp err))
          as [r|resp' e|]; [| |done].
        - by destruct Hnext as [-> ->].
        - destruct (Hwait i Hi) as (d & Hd & Hpos).
          rewrite HB, Hd in Hnext. destruct Hnext as [-> ->].
          split; [done|]. unfold tick_duration.
          destruct (Z.leb_spec (GoInt.add d (GoInt.mul 1 Microsecond)) 0);
            [lia|]. lia. }
      split; [done|]. split; [congruence|]. split; [congruence|]. split.
      * rewrite Hws'. intros k ws Hl. lookup_insert_cases Hl k n.
        -- subst ws. by destruct ws'.
        -- specialize (Hws k ws Hl). by rewrite Hret.
      * rewrite Hret, Hfin'. exact Hfin.
  - destruct (Hrecv eq_refl) as [_ Hsome].
    destruct (recv_shape n st st' Ha) as (res & Hk & Hws' & _).
    split.
    { unfold recv in Ha. rewrite Hcr in Ha.
      destruct (returned st); [done|]. rewrite Hk in Ha.
      by injection Ha as <-. }
    split; [congruence|]. split; [congruence|]. split.
    + rewrite Hws'. intros k ws Hl. lookup_insert_cases Hl k n.
      * by subst ws.
      * specialize (Hws k ws Hl). by destruct ws.
    + intros Hr. rewrite Hr in Hsome. by destruct Hsome.
Qed.

Lemma live_inv_reachable sched st :
  exec w p sched (pester c p) = Some st -> live_inv c st.
Proof.
  apply (exec_invariant w p (live_inv c)); [|apply live_inv_start].
  intros a st1 st2. apply live_inv_step.
Qed.

(** While the call has not returned, its first worker can take a step or
    hand over its result. *)
Lemma live_inv_progress st :
  live_inv c st -> returned st = None -> (0 < length (workers st))%nat ->
  exists a st', step w p a st = Some st'.
Proof.
  intros (Hcr & _ & _ & Hws & _) Hr Hlen.
  destruct (workers st !! 0%nat) as [ws|] eqn:H0;
    [|apply lookup_ge_None in H0; lia].
  pose proof (Hws _ _ H0) as Hok.
  destruct ws as [i resp err|i resp err|res| | |]; try done.
  - destruct (work_AtLoop w p 0 st i resp err Hcr H0) as (ws' & Hw' & _).
    exists (Work 0). by eexists.
  - destruct (work_Attempting_enabled 0 st i resp err Hcr H0) as [st' Hw'].
    by exists (Work 0), st'.
  - exists (Recv 0). simpl. unfold recv. rewrite Hcr, Hr, H0. by eexists.
  - rewrite Hr in Hok. by destruct Hok.
Qed.

(** A call that has not returned can be taken on until it has. *)
Lemma live_inv_extend m st :
  (total_steps_bound st <= m)%nat ->
  live_inv c st -> (0 < length (workers st))%nat ->
  exists rest st', exec w p rest st = Some st' /\ is_Some (returned st').
Proof.
  revert st. induction m as [|m IH]; intros st Hm Hinv Hlen;
    (destruct (returned st) as [r|] eqn:Hr;
       [exists [], st; split; [done|]; rewrite Hr; by eexists|]);
    destruct (live_inv_progress st Hinv Hr Hlen) as (a & st1 & Ha);
    pose proof (step_steps_bound a st st1 Ha) as Hdec; [lia|].
  destruct (IH st1) as (rest & st' & Hex & Hret).
  - lia.
  - by eapply live_inv_step.
  - by rewrite (step_workers_length w p a st st1 Ha).
  - exists (a :: rest), st'. split; [|done].
    by rewrite (exec_cons_Some w p a rest st st1 Ha).
Qed.

End Liveness.


